(** * okidoki: the search index and the git-backed tree store

    A shallow embedding of [be/search.go] and of the tree-store and
    history functions of [be/storage_git.go], with the properties the
    specification states about them.

    Conventions.
    - A Go [string] is a byte sequence: [String.string].  Comparison with
      [<], [>] is bytewise lexicographic ([String.compare]).
    - A Go [int] is 64 bits wide on every platform the Makefile builds for
      (amd64, arm64): a [Z] with the wrap-around written as [wrap64].
    - A Go [map] is a [gmap]; the order in which [range] visits a map is
      unspecified and is a parameter ([MapOrder]) of every function that
      ranges over one.
    - Library functions whose tables are not part of the repository
      ([strings.Fields], [strings.ToLower], the snowball stemmer,
      [unidecode.Unidecode]) are parameters of the section that uses them. *)

From Stdlib Require Import ZArith String Ascii List Lia Bool DecimalString.
From stdpp Require Import gmap strings list fin_maps sorting.

Local Open Scope Z_scope.

(** ** Go's [int] *)

Module GoInt.

Definition wrap64 (z : Z) : Z := (z + 2 ^ 63) mod 2 ^ 64 - 2 ^ 63.

Definition in_int64 (z : Z) : Prop := - 2 ^ 63 <= z < 2 ^ 63.

End GoInt.

(** ** The pieces of package [strings] the code uses *)

Module GoStrings.

Definition slash : ascii := "/"%char.

(** [strings.Split(s, "/")]: the pieces between slashes; never empty. *)
Fixpoint split_slash (s : string) : list string :=
  match s with
  | EmptyString => [EmptyString]
  | String c s' =>
      if Ascii.eqb c slash then EmptyString :: split_slash s'
      else match split_slash s' with
           | h :: t => String c h :: t
           | [] => [String c EmptyString]
           end
  end.

(** [strings.Join(elems, "/")]. *)
Fixpoint join_slash (l : list string) : string :=
  match l with
  | [] => EmptyString
  | [x] => x
  | x :: rest => x +:+ String slash (join_slash rest)
  end.

Fixpoint has_slash (s : string) : bool :=
  match s with
  | EmptyString => false
  | String c s' => Ascii.eqb c slash || has_slash s'
  end.

Fixpoint HasPrefix (s pre : string) : bool :=
  match pre, s with
  | EmptyString, _ => true
  | String a pre', String b s' => Ascii.eqb a b && HasPrefix s' pre'
  | String _ _, EmptyString => false
  end.

Definition TrimPrefix (s pre : string) : string :=
  if HasPrefix s pre then String.substring (String.length pre) (String.length s - String.length pre) s
  else s.

Definition HasSuffix (s suf : string) : bool :=
  let n := String.length s in
  let k := String.length suf in
  (k <=? n)%nat && String.eqb (String.substring (n - k) k s) suf.

Definition TrimSuffix (s suf : string) : string :=
  if HasSuffix s suf then String.substring 0 (String.length s - String.length suf) s else s.

Fixpoint mem_ascii (c : ascii) (cutset : string) : bool :=
  match cutset with
  | EmptyString => false
  | String d rest => Ascii.eqb c d || mem_ascii c rest
  end.

Fixpoint TrimLeft (s cutset : string) : string :=
  match s with
  | EmptyString => EmptyString
  | String c s' => if mem_ascii c cutset then TrimLeft s' cutset else s
  end.

(** [strings.Trim(s, cutset)] for a cutset of ASCII characters, which every
    cutset in the code is: a byte of a multi-byte rune never equals one. *)
Definition Trim (s cutset : string) : string :=
  String.rev (TrimLeft (String.rev (TrimLeft s cutset)) cutset).

Fixpoint map_bytes (f : ascii -> ascii) (s : string) : string :=
  match s with
  | EmptyString => EmptyString
  | String c s' => String (f c) (map_bytes f s')
  end.

Fixpoint filter_bytes (f : ascii -> bool) (s : string) : string :=
  match s with
  | EmptyString => EmptyString
  | String c s' => if f c then String c (filter_bytes f s') else filter_bytes f s'
  end.

Definition byte_in (lo hi c : ascii) : bool :=
  (nat_of_ascii lo <=? nat_of_ascii c)%nat && (nat_of_ascii c <=? nat_of_ascii hi)%nat.

Definition is_upper (c : ascii) : bool := byte_in "A" "Z" c.
Definition is_lower (c : ascii) : bool := byte_in "a" "z" c.
Definition is_digit (c : ascii) : bool := byte_in "0" "9" c.

(** [strings.ToLower] on a string of ASCII bytes. *)
Definition lower_byte (c : ascii) : ascii :=
  if is_upper c then ascii_of_nat (nat_of_ascii c + 32) else c.
Definition ToLowerASCII (s : string) : string := map_bytes lower_byte s.

(** [fmt.Sprintf("%d", n)]. *)
Definition FormatInt (n : Z) : string := NilZero.string_of_int (Z.to_int n).

End GoStrings.

(** ** Packages [path] and [path/filepath] (Unix) *)

Module Filepath.
Import GoStrings.

(** The element stack of [Clean], kept reversed in [acc]: empty and [.]
    elements are dropped, [..] removes the element before it, and where
    there is none it is kept on a relative path and dropped on a rooted one. *)
Fixpoint clean_go (rooted : bool) (acc : list string) (cs : list string) : list string :=
  match cs with
  | [] => rev acc
  | c :: cs' =>
      if String.eqb c "" || String.eqb c "." then clean_go rooted acc cs'
      else if String.eqb c ".." then
        match acc with
        | top :: acc' =>
            if String.eqb top ".." then clean_go rooted (c :: acc) cs'
            else clean_go rooted acc' cs'
        | [] => if rooted then clean_go rooted acc cs' else clean_go rooted (c :: acc) cs'
        end
      else clean_go rooted (c :: acc) cs'
  end.

Definition is_rooted (p : string) : bool :=
  match p with
  | String c _ => Ascii.eqb c slash
  | EmptyString => false
  end.

Definition elements_of (p : string) : list string :=
  clean_go (is_rooted p) [] (split_slash p).

(** [filepath.Clean] and [path.Clean]. *)
Definition Clean (p : string) : string :=
  if String.eqb p "" then "."
  else
    let out := elements_of p in
    if is_rooted p then String slash (join_slash out)
    else match out with
         | [] => "."
         | _ => join_slash out
         end.

(** [filepath.Join] and [path.Join]: leading empty elements are skipped, the
    rest is joined with slashes and cleaned; all empty gives the empty string. *)
Fixpoint Join (elem : list string) : string :=
  match elem with
  | [] => ""
  | e :: rest => if String.eqb e "" then Join rest else Clean (join_slash elem)
  end.

(** [filepath.Dir]: everything up to the last slash, cleaned. *)
Definition Dir (p : string) : string :=
  match split_slash p with
  | [] | [_] => Clean ""
  | cs => Clean (join_slash (removelast cs ++ [""]))
  end.

Fixpoint drop_trailing_empty (cs : list string) : list string :=
  match cs with
  | [] => []
  | c :: rest =>
      match drop_trailing_empty rest with
      | [] => if String.eqb c "" then [] else [c]
      | rest' => c :: rest'
      end
  end.

(** [filepath.Base]: the last element, trailing slashes removed first. *)
Definition Base (p : string) : string :=
  if String.eqb p "" then "."
  else match List.last (map Some (drop_trailing_empty (split_slash p))) None with
       | Some c => c
       | None => String slash ""
       end.

(** [filepath.FromSlash] and [filepath.ToSlash] are the identity on Unix. *)
Definition FromSlash (p : string) : string := p.
Definition ToSlash (p : string) : string := p.

End Filepath.

(** ** The document types of [main.go] *)

Record ShortDocument := {
  sdID : string;
  sdTitle : string;
  sdHasChildren : bool;
  sdPath : string
}.

Record Document := {
  ID : string;
  Title : string;
  Content : string;
  Path : string;
  Children : list ShortDocument;
  Modified : Z;
  Uncommitted : bool;
  Favorite : bool
}.

(** The zero value [Document{}]. *)
Definition emptyDocument : Document :=
  {| ID := ""; Title := ""; Content := ""; Path := ""; Children := [];
     Modified := 0; Uncommitted := false; Favorite := false |}.

(** ** The order of [range] over a map

    Go leaves it unspecified; the runtime picks some enumeration of the
    map's entries. *)

Record MapOrder := {
  range : forall V : Type, gmap string V -> list (string * V);
  range_perm : forall (V : Type) (m : gmap string V), range V m ≡ₚ map_to_list m
}.
Arguments range _ {V} _.

Definition canonical_order : MapOrder :=
  {| range := fun V m => map_to_list m;
     range_perm := fun V m => reflexivity (map_to_list m) |}.

(** The reverse of it: another admissible runtime. *)
Definition reverse_order : MapOrder :=
  {| range := fun V m => reverse (map_to_list m);
     range_perm := fun V m => reverse_Permutation (map_to_list m) |}.

(** ** [search.go] *)

Module Search.
Import GoInt GoStrings.

(** What [se.stemmer] returns: a stem with a nil error, or an error. *)
Inductive stem_result :=
  | Stemmed (stem : string)
  | StemError.

Record SearchEngine := {
  index : gmap string (gmap string Z);
  documents : gmap string Document;
  languages : gmap string bool;
  stemmer : string -> string -> bool -> stem_result
}.

(** The only error a method of the engine builds:
    [fmt.Errorf("документ не найден по пути %q", docPath)]. *)
Inductive error :=
  | ErrDocumentNotFound (docPath : string).

(** The anonymous [struct { Path string; Score int }] of [Search]. *)
Record scored := { sPath : string; sScore : Z }.

(** [Search] either returns its three results or panics in the slice
    expression [sortedResults[start:end]]. *)
Inductive search_outcome :=
  | Returned (docs : list Document) (total : Z) (err : option error)
  | Panicked.

(** The cutset of [strings.Trim]: full stop, comma, exclamation and question
    mark, double and single quote, and the three pairs of brackets. *)
Definition dquote : ascii := ascii_of_nat 34.
Definition cutset : string := ".,!?" +:+ String dquote "'()[]{}".

Definition NewSearchEngine (stem : string -> string -> bool -> stem_result)
    (langs : list string) : SearchEngine :=
  {| index := ∅;
     documents := ∅;
     languages := foldl (fun m lang => <[lang := true]> m) ∅ langs;
     stemmer := stem |}.

Definition getBasePath (docPath : string) : string :=
  let basePath := Filepath.Join ["data"; Filepath.FromSlash docPath] in
  if String.eqb docPath "" then "data" else basePath.

(** [se.index[stemmed][fullPath]++], the bucket made first when missing. *)
Definition bump (stemmed fullPath : string) (idx : gmap string (gmap string Z))
    : gmap string (gmap string Z) :=
  let bucket := default ∅ (idx !! stemmed) in
  <[stemmed := <[fullPath := wrap64 (default 0 (bucket !! fullPath) + 1)]> bucket]> idx.

(** [delete(index, fullPath)] on the bucket of [stemmed], the key removed
    when the bucket is left empty; nothing when there is no bucket. *)
Definition unlink (stemmed fullPath : string) (idx : gmap string (gmap string Z))
    : gmap string (gmap string Z) :=
  match idx !! stemmed with
  | Some bucket =>
      let bucket' := delete fullPath bucket in
      if decide (size bucket' = 0%nat) then delete stemmed idx
      else <[stemmed := bucket']> idx
  | None => idx
  end.

Section Engine.

(** [strings.Fields] and [strings.ToLower] on arbitrary (UTF-8) input. *)
Variable Fields : string -> list string.
Variable ToLower : string -> string.
(** The runtime's map iteration order. *)
Variable o : MapOrder.

Definition normalize (word : string) : string := Trim (ToLower word) cutset.

Definition langs_of (se : SearchEngine) : list string := (range o (languages se)).*1.

(** The body of the language loop of [IndexDocument]. *)
Definition index_lang (se : SearchEngine) (fullPath word : string)
    (idx : gmap string (gmap string Z)) (lang : string) : gmap string (gmap string Z) :=
  match stemmer se word lang false with
  | Stemmed stemmed => if String.eqb stemmed "" then idx else bump stemmed fullPath idx
  | StemError => idx
  end.

Definition index_word (se : SearchEngine) (fullPath : string)
    (idx : gmap string (gmap string Z)) (word : string) : gmap string (gmap string Z) :=
  foldl (index_lang se fullPath (normalize word)) idx (langs_of se).

Definition IndexDocument (se : SearchEngine) (doc : Document) : SearchEngine * option error :=
  let fullPath := getBasePath (Path doc) in
  let docs := <[fullPath := doc]> (documents se) in
  let content := Title doc +:+ " " +:+ Content doc in
  let words := Fields content in
  ({| index := foldl (index_word se fullPath) (index se) words;
      documents := docs;
      languages := languages se;
      stemmer := stemmer se |}, None).

(** The body of the word loop of [DeleteDocument]. *)
Definition unlink_word (se : SearchEngine) (fullPath lang : string)
    (idx : gmap string (gmap string Z)) (word : string) : gmap string (gmap string Z) :=
  match stemmer se (normalize word) lang false with
  | Stemmed stemmed => if String.eqb stemmed "" then idx else unlink stemmed fullPath idx
  | StemError => idx
  end.

Definition unlink_lang (se : SearchEngine) (fullPath : string) (words : list string)
    (idx : gmap string (gmap string Z)) (lang : string) : gmap string (gmap string Z) :=
  foldl (unlink_word se fullPath lang) idx words.

Definition DeleteDocument (se : SearchEngine) (docPath : string) : SearchEngine * option error :=
  let fullPath := getBasePath docPath in
  match documents se !! fullPath with
  | None => (se, Some (ErrDocumentNotFound docPath))
  | Some doc =>
      let docContent := Title doc +:+ " " +:+ Content doc in
      let words := Fields docContent in
      ({| index := foldl (unlink_lang se fullPath words) (index se) (langs_of se);
          documents := delete fullPath (documents se);
          languages := languages se;
          stemmer := stemmer se |}, None)
  end.

(** [results[docPath] += count]. *)
Definition add_score (results : gmap string Z) (entry : string * Z) : gmap string Z :=
  <[entry.1 := wrap64 (default 0 (results !! entry.1) + entry.2)]> results.

Definition collect_lang (se : SearchEngine) (word : string) (results : gmap string Z)
    (lang : string) : gmap string Z :=
  match stemmer se word lang false with
  | Stemmed stemmed =>
      if String.eqb stemmed "" then results
      else match index se !! stemmed with
           | Some docs => foldl add_score results (range o docs)
           | None => results
           end
  | StemError => results
  end.

Definition collect_word (se : SearchEngine) (results : gmap string Z) (word : string)
    : gmap string Z :=
  foldl (collect_lang se (normalize word)) results (langs_of se).

(** The [results] map of [Search] after the query loop. *)
Definition collect (se : SearchEngine) (query : string) : gmap string Z :=
  foldl (collect_word se) ∅ (Fields query).

(** [sortedResults[i], sortedResults[j] = sortedResults[j], sortedResults[i]]. *)
Definition swap (l : list scored) (i j : nat) : list scored :=
  match l !! i, l !! j with
  | Some a, Some b => <[j := a]> (<[i := b]> l)
  | _, _ => l
  end.

(** One pass of the body of the inner loop, at indices [i] and [j]. *)
Definition sort_step (i : nat) (l : list scored) (j : nat) : list scored :=
  match l !! i, l !! j with
  | Some a, Some b =>
      if sScore b =? sScore a then
        if String.ltb (sPath b) (sPath a) then swap l i j else l
      else if sScore b >? sScore a then swap l i j
      else l
  | _, _ => l
  end.

Definition sort_inner (l : list scored) (i : nat) : list scored :=
  foldl (sort_step i) l (seq (S i) (length l - S i)).

(** The two nested loops that sort [sortedResults] in place. *)
Definition sortResults (l : list scored) : list scored :=
  foldl sort_inner l (seq 0 (length l)).

Definition to_scored (entry : string * Z) : scored :=
  {| sPath := entry.1; sScore := entry.2 |}.

(** [sortedResults] as the page window finds it. *)
Definition sortedResults (se : SearchEngine) (query : string) : list scored :=
  sortResults (to_scored <$> range o (collect se query)).

Definition Search (se : SearchEngine) (query : string) (page pageSize : Z) : search_outcome :=
  let page := if page <? 1 then 1 else page in
  let pageSize := if pageSize <? 1 then 10 else pageSize in
  let sorted := sortedResults se query in
  let totalResults := Z.of_nat (length sorted) in
  let start := wrap64 (wrap64 (page - 1) * pageSize) in
  if start >=? totalResults then Returned [] totalResults None
  else
    let end_ := wrap64 (start + pageSize) in
    let end_ := if end_ >? totalResults then totalResults else end_ in
    if (0 <=? start) && (start <=? end_) then
      let paginatedResults := take (Z.to_nat (end_ - start)) (drop (Z.to_nat start) sorted) in
      Returned (omap (fun r => documents se !! sPath r) paginatedResults) totalResults None
    else Panicked.

End Engine.

(** *** A small instance to run the engine on

    ASCII text, split at spaces; a stemmer that knows the two languages of
    [main] and strips a plural [s]. *)

Fixpoint fields_go (cur : string) (s : string) : list string :=
  match s with
  | EmptyString => if String.eqb cur "" then [] else [String.rev cur]
  | String c s' =>
      if Ascii.eqb c " " then
        (if String.eqb cur "" then fields_go "" s' else String.rev cur :: fields_go "" s')
      else fields_go (String c cur) s'
  end.
Definition ascii_Fields (s : string) : list string := fields_go "" s.

Definition toy_stem (word lang : string) (stopWords : bool) : stem_result :=
  if String.eqb lang "english" then Stemmed (TrimSuffix word "s")
  else if String.eqb lang "russian" then Stemmed word
  else StemError.

Definition mkDoc (path title content : string) : Document :=
  {| ID := Filepath.Base path; Title := title; Content := content; Path := path;
     Children := []; Modified := 0; Uncommitted := false; Favorite := false |}.

Definition engine0 : SearchEngine := NewSearchEngine toy_stem ["english"; "russian"].

Definition index_all (o : MapOrder) (docs : list Document) (se : SearchEngine) : SearchEngine :=
  foldl (fun se d => (IndexDocument ascii_Fields ToLowerASCII o se d).1) se docs.

End Search.

(** ** The file system and the repository under [storage_git.go]

    The process sees the tree below its working directory: a map from
    paths, as lists of names from the working directory down, to files and
    directories.  There are no symbolic links, and what lies outside the
    working directory does not exist for the process.  Every path the code
    hands to package [os] comes out of [filepath.Join], hence cleaned. *)

Module Storage.
Import GoInt GoStrings Filepath.

Inductive fnode :=
  | FFile (data : string)
  | FDir.

Inductive os_error := ENOENT | ENOTDIR | EEXIST | EISDIR | EINVAL | EACCES | EIO.

(** The errors the store returns: its two package variables, the messages
    it formats, and the errors of [os] and go-git, bare or wrapped
    ([fmt.Errorf("...: %w", err)]). *)
Inductive error :=
  | mkDirErr
  | ErrDocumentNotFound
  | Errorf (msg : string)
  | OsError (e : os_error)
  | GitError
  | Wrap (msg : string) (e : error).

Inductive result (A : Type) :=
  | Ok (a : A)
  | Err (e : error).
Arguments Ok {A} a.
Arguments Err {A} e.

(** [os.DirEntry], as far as the code looks at it. *)
Record DirEntry := { Name : string; IsDir : bool }.

(** A commit: its position in the history stands for its hash (the
    history the store writes is linear, so the position identifies it),
    its tree is the map from the paths of the files, relative to the
    repository root, to their contents, and a blob's content stands for the
    blob's hash (equal hashes, equal contents). *)
Record Commit := {
  cHash : nat;
  cTree : gmap (list string) string;
  cMessage : string;
  cWhen : Z
}.

Record World := {
  files : gmap (list string) fnode;
  (** the commits of the repository at [baseDir], newest first *)
  commits : list Commit;
  (** [time.Now()] *)
  now : Z;
  (** the paths on which [os.WriteFile] fails with an I/O error *)
  write_fault : string -> bool;
  (** the repository is broken: every call into go-git returns an error *)
  git_fault : bool
}.

Definition set_files (w : World) (f : gmap (list string) fnode) : World :=
  {| files := f; commits := commits w; now := now w;
     write_fault := write_fault w; git_fault := git_fault w |}.

Definition set_commits (w : World) (cs : list Commit) : World :=
  {| files := files w; commits := cs; now := now w;
     write_fault := write_fault w; git_fault := git_fault w |}.

Record GitStorage := { baseDir : string; docsDir : string }.

(** [CommitHistory], without the date's time zone. *)
Record CommitHistory := {
  CommitHash : nat;
  Date : Z;
  Message : string;
  Added : Z;
  Deleted : Z;
  FilePath : string
}.

(** [object.Change]: the entry on each side of a tree diff, a path with
    the blob there; [None] is the empty entry. *)
Record Change := {
  From : option (string * string);
  To : option (string * string)
}.

(** *** Package [os] *)

(** The names from the working directory down to [p]; [None] for a path
    that leaves the working directory. *)
Definition resolve (p : string) : option (list string) :=
  if is_rooted p then None
  else
    let k := clean_go false [] (split_slash p) in
    if existsb (String.eqb "..") k then None else Some k.

(** Is there a regular file where the walk down [rest] needs a directory? *)
Fixpoint file_on_way (f : gmap (list string) fnode) (cur rest : list string) : bool :=
  match rest with
  | [] => false
  | c :: rest' =>
      match f !! cur with
      | Some (FFile _) => true
      | _ => file_on_way f (cur ++ [c]) rest'
      end
  end.

Definition lookup_path (f : gmap (list string) fnode) (k : list string) : result fnode :=
  match f !! k with
  | Some n => Ok n
  | None => if file_on_way f [] k then Err (OsError ENOTDIR) else Err (OsError ENOENT)
  end.

Definition os_Stat (w : World) (p : string) : result fnode :=
  match resolve p with
  | None => Err (OsError ENOENT)
  | Some k => lookup_path (files w) k
  end.

Definition IsNotExist {A} (r : result A) : bool :=
  match r with
  | Err (OsError ENOENT) => true
  | _ => false
  end.

Definition is_ok {A} (r : result A) : bool :=
  match r with
  | Ok _ => true
  | Err _ => false
  end.

Definition entry_le (a b : DirEntry) : Prop := String.le (Name a) (Name b).

#[global] Instance entry_le_dec : RelDecision entry_le.
Proof. intros a b. unfold entry_le. apply _. Defined.

Definition is_dir (n : fnode) : bool :=
  match n with
  | FDir => true
  | FFile _ => false
  end.

(** The name of [k'] inside directory [k], when [k'] is an entry of it. *)
Fixpoint child_name (k k' : list string) : option string :=
  match k, k' with
  | [], [name] => Some name
  | c :: k, c' :: k' => if String.eqb c c' then child_name k k' else None
  | _, _ => None
  end.

Definition dir_entries (f : gmap (list string) fnode) (k : list string) : list DirEntry :=
  merge_sort entry_le
    (omap (fun '(k', n) =>
             match child_name k k' with
             | Some name => Some {| Name := name; IsDir := is_dir n |}
             | None => None
             end) (map_to_list f)).

(** [os.ReadDir]: the entries of the directory, sorted by file name. *)
Definition os_ReadDir (w : World) (p : string) : result (list DirEntry) :=
  match resolve p with
  | None => Err (OsError ENOENT)
  | Some k =>
      match lookup_path (files w) k with
      | Ok FDir => Ok (dir_entries (files w) k)
      | Ok (FFile _) => Err (OsError ENOTDIR)
      | Err e => Err e
      end
  end.

Definition os_ReadFile (w : World) (p : string) : result string :=
  match resolve p with
  | None => Err (OsError ENOENT)
  | Some k =>
      match lookup_path (files w) k with
      | Ok (FFile data) => Ok data
      | Ok FDir => Err (OsError EISDIR)
      | Err e => Err e
      end
  end.

(** The directory a new entry [k] goes into must be there. *)
Definition parent_ready (f : gmap (list string) fnode) (k : list string) : option os_error :=
  match lookup_path f (removelast k) with
  | Ok FDir => None
  | Ok (FFile _) => Some ENOTDIR
  | Err (OsError e) => Some e
  | Err _ => Some EIO
  end.

Definition os_Mkdir (w : World) (p : string) : option os_error * World :=
  match resolve p with
  | None => (Some EACCES, w)
  | Some [] => (Some EEXIST, w)
  | Some k =>
      match files w !! k with
      | Some _ => (Some EEXIST, w)
      | None =>
          match parent_ready (files w) k with
          | Some e => (Some e, w)
          | None => (None, set_files w (<[k := FDir]> (files w)))
          end
      end
  end.

Definition os_WriteFile (w : World) (p data : string) : option os_error * World :=
  if write_fault w p then (Some EIO, w)
  else
    match resolve p with
    | None => (Some EACCES, w)
    | Some [] => (Some EISDIR, w)
    | Some k =>
        match files w !! k with
        | Some FDir => (Some EISDIR, w)
        | _ =>
            match parent_ready (files w) k with
            | Some e => (Some e, w)
            | None => (None, set_files w (<[k := FFile data]> (files w)))
            end
        end
    end.

Definition is_prefix (k k' : list string) : bool := bool_decide (k `prefix_of` k').

(** [os.RemoveAll]: the path and all below it; no error when it is absent. *)
Definition os_RemoveAll (w : World) (p : string) : option os_error * World :=
  match resolve p with
  | None => (None, w)
  | Some [] => (Some EINVAL, w)
  | Some k =>
      (None, set_files w (filter (fun e => is_prefix k e.1 = false) (files w)))
  end.

(** The subtree at [old] moved to [new]. *)
Definition move_tree (f : gmap (list string) fnode) (old new : list string)
    : gmap (list string) fnode :=
  list_to_map
    ((fun e : list string * fnode => (new ++ drop (length old) e.1, e.2))
       <$> map_to_list (filter (fun e => is_prefix old e.1 = true) f))
  ∪ filter (fun e => is_prefix old e.1 = false) (delete new f).

(** [os.Rename].  Go refuses an existing directory as the new name, with
    [EEXIST], before it calls [rename(2)]; the system call then replaces
    an existing file by a file. *)
Definition os_Rename (w : World) (oldname newname : string) : option os_error * World :=
  match resolve oldname, resolve newname with
  | Some old, Some new =>
      match lookup_path (files w) new, lookup_path (files w) old with
      | Ok FDir, Err (OsError e) => (Some e, w)
      | Ok FDir, _ => (Some EEXIST, w)
      | _, Err (OsError e) => (Some e, w)
      | _, Err _ => (Some EIO, w)
      | newstat, Ok n =>
          match old with
          | [] => (Some EINVAL, w)
          | _ =>
              if bool_decide (old = new) then (None, w)
              else if is_prefix old new then (Some EINVAL, w)
              else match parent_ready (files w) new with
                   | Some e => (Some e, w)
                   | None =>
                       match n, newstat with
                       | FDir, Ok (FFile _) => (Some ENOTDIR, w)
                       | _, _ => (None, set_files w (move_tree (files w) old new))
                       end
                   end
          end
      end
  | _, _ => (Some EACCES, w)
  end.

(** *** go-git *)

(** The paths of a tree or a diff are compared name by name. *)
Fixpoint path_leb (a b : list string) : bool :=
  match a, b with
  | [], _ => true
  | _ :: _, [] => false
  | x :: a', y :: b' =>
      match String.compare x y with
      | Lt => true
      | Gt => false
      | Eq => path_leb a' b'
      end
  end.

Definition path_le {A} (a b : list string * A) : Prop := path_leb a.1 b.1 = true.

#[global] Instance path_le_dec {A} : RelDecision (@path_le A).
Proof. intros a b. unfold path_le. apply _. Defined.

(** The files below [baseDir] as the work tree has them, keyed by their
    path from the repository root. *)
Definition worktree (gs : GitStorage) (w : World) : gmap (list string) string :=
  match resolve (baseDir gs) with
  | None => ∅
  | Some base =>
      list_to_map
        (omap (fun e : list string * fnode =>
                 match e.2 with
                 | FFile data =>
                     if is_prefix base e.1 then Some (drop (length base) e.1, data) else None
                 | FDir => None
                 end) (map_to_list (files w)))
  end.

Definition head_tree (w : World) : gmap (list string) string :=
  match commits w with
  | c :: _ => cTree c
  | [] => ∅
  end.

(** [object.DiffTree(from, to)]: one change for each path whose blob
    differs between the trees, in the order of the paths. *)
Definition DiffTree (from to : gmap (list string) string) : list Change :=
  omap (fun e : list string * (option string * option string) =>
          let name := join_slash e.1 in
          match e.2 with
          | (Some a, Some b) =>
              if String.eqb a b then None
              else Some {| From := Some (name, a); To := Some (name, b) |}
          | (Some a, None) => Some {| From := Some (name, a); To := None |}
          | (None, Some b) => Some {| From := None; To := Some (name, b) |}
          | (None, None) => None
          end)
       (merge_sort path_le
          (map_to_list
             (merge (fun a b => match a, b with
                                | None, None => None
                                | _, _ => Some (a, b)
                                end) from to))).

(** [Change.name()]: the name on the [From] side unless that is empty. *)
Definition change_name (c : Change) : string :=
  match From c, To c with
  | Some (name, _), _ => name
  | None, Some (name, _) => name
  | None, None => ""
  end.

(** [Worktree.Status().IsClean()] after [Add(".")]. *)
Definition IsClean (gs : GitStorage) (w : World) : bool :=
  bool_decide (worktree gs w = head_tree w).

(** The paths [Worktree.Status()] lists: those whose blob in the work
    tree differs from the one in the head commit; the work-tree code of
    each is other than [Unmodified]. *)
Definition status_paths (gs : GitStorage) (w : World) : list string :=
  change_name <$> DiffTree (head_tree w) (worktree gs w).

(** *** The tree store *)

Section Store.

(** [unidecode.Unidecode]: the transliteration tables are not part of the
    repository. *)
Variable Unidecode : string -> string.

Variable gs : GitStorage.

(** [commitChanges]: stage everything, and commit unless nothing changed. *)
Definition commitChanges (w : World) (message : string) : option error * World :=
  if git_fault w then (Some (Wrap "failed to get worktree" GitError), w)
  else if IsClean gs w then (None, w)
  else
    (None,
     set_commits w
       ({| cHash := length (commits w); cTree := worktree gs w;
           cMessage := message; cWhen := now w |} :: commits w)).

Definition first_file (entries : list DirEntry) : option DirEntry :=
  List.find (fun f => negb (IsDir f)) entries.

Definition getTitle (w : World) (path : string) : result string :=
  match os_ReadDir w (Join [docsDir gs; path]) with
  | Err e => Err e
  | Ok entries =>
      match first_file entries with
      | Some f => Ok (TrimSuffix (Name f) ".md")
      | None => Err (Errorf "title not found")
      end
  end.

Definition hasChildren (w : World) (docPath : string) : result bool :=
  let fullPath := Join [docsDir gs; FromSlash docPath] in
  match os_ReadDir w fullPath with
  | Err e => Err e
  | Ok entries => Ok (existsb IsDir entries)
  end.

(** The loop of [getChildren] over the entries of one child directory:
    the last file names the title, any directory sets [hasChildren]. *)
Definition scan_child (childTitle : list DirEntry) : string * bool :=
  foldl (fun '(title, has) ff =>
           if negb (IsDir ff) then (TrimSuffix (Name ff) ".md", has) else (title, true))
        ("", false) childTitle.

Fixpoint getChildren_loop (w : World) (fullPath docPath : string) (entries : list DirEntry)
    (children : list ShortDocument) : result (list ShortDocument) :=
  match entries with
  | [] => Ok children
  | f :: rest =>
      if IsDir f then
        match os_ReadDir w (Join [fullPath; Name f]) with
        | Err e => Err e
        | Ok childTitle =>
            let '(title, has) := scan_child childTitle in
            getChildren_loop w fullPath docPath rest
              (children ++ [ {| sdID := Name f; sdTitle := title; sdHasChildren := has;
                                sdPath := Join [docPath; Name f] |} ])
        end
      else getChildren_loop w fullPath docPath rest children
  end.

Definition getChildren (w : World) (docPath : string) : result (list ShortDocument) :=
  let fullPath := Join [docsDir gs; FromSlash docPath] in
  match os_ReadDir w fullPath with
  | Err e => Err e
  | Ok entries => getChildren_loop w fullPath docPath entries []
  end.

Definition readDocument (w : World) (docPath : string) : result Document :=
  match os_ReadDir w (Join [docsDir gs; FromSlash docPath]) with
  | Err e => Err e
  | Ok entries =>
      match first_file entries with
      | None => Err (Errorf "document not found")
      | Some f =>
          let filePath := Join [docsDir gs; FromSlash docPath; Name f] in
          match os_Stat w filePath with
          | Err e => Err e
          | Ok _ =>
              match getChildren w docPath with
              | Err e => Err e
              | Ok children =>
                  match os_ReadFile w filePath with
                  | Err e => Err e
                  | Ok data =>
                      Ok {| ID := Base docPath; Title := TrimSuffix (Name f) ".md";
                            Content := data; Children := children; Modified := 0;
                            Path := docPath; Uncommitted := false; Favorite := false |}
                  end
              end
          end
      end
  end.

Definition isUncommited (w : World) (docPath : string) : result bool :=
  if git_fault w then Err (Wrap "failed to get worktree" GitError)
  else
    let status := status_paths gs w in
    match getTitle w docPath with
    | Err e => Err e
    | Ok title =>
        let relFilePath := ToSlash (Join ["docs"; docPath; title +:+ ".md"]) in
        if existsb (String.eqb relFilePath) status then Ok true
        else
          let relDirPath := ToSlash (Join ["docs"; docPath]) +:+ "/" in
          Ok (existsb (fun filePath => HasPrefix filePath relDirPath) status)
    end.

Definition with_uncommitted (doc : Document) (u : bool) : Document :=
  {| ID := ID doc; Title := Title doc; Content := Content doc; Path := Path doc;
     Children := Children doc; Modified := Modified doc; Uncommitted := u;
     Favorite := Favorite doc |}.

Definition GetDocument (w : World) (docPath : string) : result Document :=
  let fullPath := Join [docsDir gs; FromSlash docPath] in
  if IsNotExist (os_Stat w fullPath) then Err ErrDocumentNotFound
  else
    match readDocument w docPath with
    | Err e => Err e
    | Ok doc =>
        match isUncommited w docPath with
        | Err e => Err e
        | Ok uncommited => Ok (with_uncommitted doc uncommited)
        end
    end.

(** [nonAlphanumericRegex]: the bytes the expression leaves in place. *)
Definition is_word_byte (c : ascii) : bool :=
  is_lower c || is_upper c || is_digit c || Ascii.eqb c "_".

Definition space_to_underscore (c : ascii) : ascii :=
  if Ascii.eqb c " " then "_"%char else c.

(** The lines of [generateID] before the loop. *)
Definition slug (title : string) : string :=
  let transliterated := Unidecode title in
  let id := map_bytes space_to_underscore transliterated in
  let id := filter_bytes is_word_byte id in
  ToLowerASCII id.

(** [fmt.Sprintf("%s(%d)", baseID, counter)]. *)
Definition numbered_id (baseID : string) (counter : Z) : string :=
  baseID +:+ "(" +:+ FormatInt counter +:+ ")".

(** The loop of [generateID], at most [fuel] times round. *)
Fixpoint generateID_loop (fuel : nat) (w : World) (parentPath baseID id : string)
    (counter : Z) : option string :=
  match fuel with
  | O => None
  | S fuel' =>
      let fpath := Join [docsDir gs; parentPath; id] in
      if negb (String.eqb id "root") && IsNotExist (os_Stat w fpath) then Some id
      else generateID_loop fuel' w parentPath baseID (numbered_id baseID counter)
             (wrap64 (counter + 1))
  end.

Definition generateID (fuel : nat) (w : World) (parentPath title : string) : option string :=
  generateID_loop fuel w parentPath (slug title) (slug title) 1.

(** [CreateDocument]; [None] when the loop of [generateID] has not ended
    within [fuel] rounds. *)
Definition CreateDocument (fuel : nat) (w : World) (parentPath title content : string)
    : option (result Document * World) :=
  match generateID fuel w parentPath title with
  | None => None
  | Some id =>
      let fullPath :=
        if String.eqb parentPath "" then Join [docsDir gs; id]
        else Join [docsDir gs; FromSlash parentPath; id] in
      Some
        match os_Mkdir w fullPath with
        | (Some _, w1) => (Err mkDirErr, w1)
        | (None, w1) =>
            let docFilePath := Join [fullPath; title +:+ ".md"] in
            match os_WriteFile w1 docFilePath content with
            | (Some e, w2) => (Err (OsError e), (os_RemoveAll w2 fullPath).2)
            | (None, w2) =>
                let newDocPath := Join [parentPath; id] in
                match commitChanges w2 ("Create document: " +:+ newDocPath) with
                | (Some e, w3) =>
                    (Err (Wrap "failed to commit changes" e), (os_RemoveAll w3 fullPath).2)
                | (None, w3) =>
                    match getChildren w3 parentPath with
                    | Err e => (Err e, w3)
                    | Ok children =>
                        (Ok {| ID := id; Title := title; Content := content;
                               Children := children; Path := newDocPath; Modified := 0;
                               Uncommitted := false; Favorite := false |}, w3)
                    end
                end
            end
        end
  end.

Definition UpdateDocument (fuel : nat) (w : World) (docPath title content : string)
    (commit : bool) : option (result Document * World) :=
  let fullPath := Join [docsDir gs; FromSlash docPath] in
  if IsNotExist (os_Stat w fullPath) then Some (Err (Errorf "document not found"), w)
  else
    match GetDocument w docPath with
    | Err e => Some (Err e, w)
    | Ok currentDoc =>
        (** the title branch: the world after it, and the new [fullPath] and [docPath] *)
        let renamed : option (result (string * string) * World) :=
          if negb (String.eqb title (Title currentDoc)) then
            match getTitle w docPath with
            | Err e => Some (Err e, w)
            | Ok oldTitle =>
                match os_Rename w (Join [docsDir gs; docPath; oldTitle +:+ ".md"])
                                  (Join [docsDir gs; docPath; title +:+ ".md"]) with
                | (Some e, w1) => Some (Err (OsError e), w1)
                | (None, w1) =>
                    match generateID fuel w1 docPath title with
                    | None => None
                    | Some newID =>
                        let newPath := Join [Dir fullPath; newID] in
                        match os_Rename w1 fullPath newPath with
                        | (Some e, w2) => Some (Err (OsError e), w2)
                        | (None, w2) => Some (Ok (newPath, Join [Dir docPath; newID]), w2)
                        end
                    end
                end
            end
          else Some (Ok (fullPath, docPath), w) in
        match renamed with
        | None => None
        | Some (Err e, w2) => Some (Err e, w2)
        | Some (Ok (fullPath, docPath), w2) =>
            let docFilePath := Join [fullPath; title +:+ ".md"] in
            Some
              match os_WriteFile w2 docFilePath content with
              | (Some e, w3) => (Err (OsError e), w3)
              | (None, w3) =>
                  match (if commit then commitChanges w3 ("Update document: " +:+ docPath)
                         else (None, w3)) with
                  | (Some e, w4) => (Err (Wrap "failed to commit changes" e), w4)
                  | (None, w4) =>
                      match getChildren w4 docPath with
                      | Err e => (Err e, w4)
                      | Ok children =>
                          (Ok {| ID := Base docPath; Title := title; Content := content;
                                 Children := children; Path := docPath; Modified := 0;
                                 Uncommitted := false; Favorite := false |}, w4)
                      end
                  end
              end
        end
    end.

Definition DeleteDocument (w : World) (path : string) : option error * World :=
  let fullPath := Join [docsDir gs; FromSlash path] in
  match hasChildren w path with
  | Err e => (Some e, w)
  | Ok true => (Some (Errorf "cannot delete document with children"), w)
  | Ok false =>
      match os_RemoveAll w fullPath with
      | (Some e, w1) => (Some (OsError e), w1)
      | (None, w1) =>
          match commitChanges w1 ("Delete document: " +:+ path) with
          | (Some e, w2) => (Some (Wrap "failed to commit changes" e), w2)
          | (None, w2) => (None, w2)
          end
      end
  end.

Definition MoveDocument (w : World) (sourcePath targetPath : string) : option error * World :=
  let sourceFullPath := Join [docsDir gs; FromSlash sourcePath] in
  let targetFullPath := Join [docsDir gs; FromSlash targetPath; Base sourcePath] in
  if IsNotExist (os_Stat w (Dir targetFullPath)) then
    (Some (Errorf "target directory does not exist"), w)
  else if IsNotExist (os_Stat w sourceFullPath) then
    (Some (Errorf "source document does not exist"), w)
  else if is_ok (os_Stat w targetFullPath) then
    (Some (Errorf "target document already exists"), w)
  else
    match os_Rename w sourceFullPath targetFullPath with
    | (Some e, w1) => (Some (OsError e), w1)
    | (None, w1) =>
        match commitChanges w1
                ("Move document from " +:+ sourcePath +:+ " to " +:+ targetPath) with
        | (Some e, w2) => (Some (Wrap "failed to commit changes" e), w2)
        | (None, w2) => (None, w2)
        end
    end.

End Store.

End Storage.

(** ** [GetDocumentHistory]

    go-git is not part of the repository; the model takes from it what
    the function relies on.  [Repository.Log] walks the commits from the
    head back (the history the store writes is linear).  With a
    [PathFilter] it yields a commit when some change between the commit's
    tree and the tree of the next commit of the walk (the empty tree after
    the last) has a name the filter accepts; it asks the filter change by
    change, in the order of the diff, and stops at the first accepted.  The
    walk is lazy: the callback of [ForEach] runs on a commit before the
    filter sees the changes of the commits after it. *)

Module History.
Import GoInt GoStrings Filepath Storage.

Section Walk.

Variable gs : GitStorage.

(** [Commit.Stats()]: additions and deletions per file between the tree of
    the parent and the tree of the commit; the line diff is go-git's. *)
Variable Stats : gmap (list string) string -> gmap (list string) string -> list (Z * Z).

(** Whether the closure [nested] shares the loop variable [change] with
    the later rounds of the loop (Go before 1.22) or has the one of its own
    round (Go 1.22 and later). *)
Variable shared_loopvar : bool.

(** The [PathFilter] closure; [filePath] is the variable it shares with
    the rest of the function, returned as it is after the call. *)
Definition PathFilter (w : World) (docPath filePath s : string) : bool * string :=
  if String.eqb filePath "" then
    match getTitle gs w docPath with
    | Err _ => (false, filePath)
    | Ok title =>
        let filePath := Join [docsDir gs; docPath; title +:+ ".md"] in
        (String.eqb (FromSlash s) (FromSlash filePath), filePath)
    end
  else
    let s := Join [baseDir gs; s] in
    (String.eqb (FromSlash s) (FromSlash filePath), filePath).

(** [commitPathIter.hasFileChange]. *)
Fixpoint hasFileChange (w : World) (docPath filePath : string) (changes : list Change)
    : bool * string :=
  match changes with
  | [] => (false, filePath)
  | change :: rest =>
      let '(accepted, filePath) := PathFilter w docPath filePath (change_name change) in
      if accepted then (true, filePath) else hasFileChange w docPath filePath rest
  end.

(** One round of the loop over [changes] in the callback: the visited
    blobs, the relevant changes, and the change [nested] was last set at. *)
Definition scan_change (st : gset string * list Change * option Change) (change : Change)
    : gset string * list Change * option Change :=
  let '(visited, relevantChanges, nested) := st in
  match From change, To change with
  | Some (_, fromHash), None =>
      if bool_decide (fromHash ∈ visited) then st
      else (visited ∪ {[fromHash]}, relevantChanges ++ [change], Some change)
  | Some _, Some _ => (visited, relevantChanges ++ [change], nested)
  | None, Some (_, hash) =>
      if bool_decide (hash ∈ visited) then st
      else (visited ∪ {[hash]}, relevantChanges ++ [change], nested)
  | None, None => st
  end.

(** [change.From.Name] as [nested] reads it when it is called, after the loop. *)
Definition nested_from (changes : list Change) (captured : Change) : string :=
  let change := if shared_loopvar then List.last changes captured else captured in
  match From change with
  | Some (name, _) => name
  | None => ""
  end.

Definition sum_stats (stats : list (Z * Z)) : Z * Z :=
  foldl (fun '(added, deleted) '(a, d) => (wrap64 (added + a), wrap64 (deleted + d)))
        (0, 0) stats.

Definition location (filePath : string) : string :=
  let splitted := split_slash (TrimPrefix filePath (docsDir gs +:+ "/")) in
  join_slash (removelast splitted).

(** The state [ForEach] threads: the shared [filePath], the visited blobs,
    the history so far and the processed commit hashes. *)
Definition walk_state : Type := string * gset string * list CommitHistory * gset nat.

(** The walk over the commits from [cs] on.  [recurse] is the nested
    call [gs.getDocumentHistory("", filePath, visited)]. *)
Fixpoint walk
    (recurse : string -> gset string -> option (result (list CommitHistory) * gset string))
    (w : World) (docPath : string) (cs : list Commit) (st : walk_state)
    : option (result (list CommitHistory) * gset string) :=
  match cs with
  | [] => let '(_, visited, history, _) := st in Some (Ok history, visited)
  | c :: older =>
      let '(filePath, visited, history, processedHashes) := st in
      let parentTree := match older with p :: _ => cTree p | [] => ∅ end in
      let '(found, filePath) :=
        hasFileChange w docPath filePath (DiffTree (cTree c) parentTree) in
      if negb found then walk recurse w docPath older (filePath, visited, history, processedHashes)
      else
        match older with
        | [] => walk recurse w docPath older (filePath, visited, history, processedHashes)
        | _ :: _ =>
            let changes := DiffTree parentTree (cTree c) in
            let '(visited, relevantChanges, nested) :=
              foldl scan_change (visited, [], None) changes in
            match relevantChanges with
            | [] => walk recurse w docPath older (filePath, visited, history, processedHashes)
            | _ :: _ =>
                if bool_decide (cHash c ∈ processedHashes) then
                  walk recurse w docPath older (filePath, visited, history, processedHashes)
                else
                  let processedHashes := processedHashes ∪ {[cHash c]} in
                  let '(added, deleted) := sum_stats (Stats parentTree (cTree c)) in
                  let history :=
                    history ++ [ {| CommitHash := cHash c; Date := cWhen c;
                                    Message := cMessage c; Added := added;
                                    Deleted := deleted; FilePath := location filePath |} ] in
                  match nested with
                  | None =>
                      walk recurse w docPath older (filePath, visited, history, processedHashes)
                  | Some captured =>
                      match recurse (Join [baseDir gs; nested_from changes captured]) visited with
                      | None => None
                      | Some (Err e, visited) =>
                          Some (Err (Wrap "error processing commit history" e), visited)
                      | Some (Ok rep, visited) =>
                          walk recurse w docPath older
                            (filePath, visited, history ++ rep, processedHashes)
                      end
                  end
            end
        end
  end.

(** [getDocumentHistory]; [fuel] bounds the depth of the nested calls, and
    the result is [None] when it is used up. *)
Fixpoint getDocumentHistory (fuel : nat) (w : World) (docPath filePath : string)
    (visited : gset string) : option (result (list CommitHistory) * gset string) :=
  match fuel with
  | O => None
  | S fuel' =>
      if negb (String.eqb docPath "")
         && IsNotExist (os_Stat w (Join [docsDir gs; docPath]))
      then Some (Err (Errorf "document not found"), visited)
      else
        match git_fault w, commits w with
        | true, _ | _, [] => Some (Err (Wrap "failed to get git log" GitError), visited)
        | false, cs =>
            walk (fun filePath visited => getDocumentHistory fuel' w "" filePath visited)
                 w docPath cs (filePath, visited, [], ∅)
        end
  end.

Definition GetDocumentHistory (fuel : nat) (w : World) (docPath : string)
    : option (result (list CommitHistory)) :=
  match getDocumentHistory fuel w (Join [docPath]) "" ∅ with
  | None => None
  | Some (r, _) => Some r
  end.

End Walk.

End History.

(** * Properties *)

(** ** Arithmetic of [wrap64] *)

Module GoIntFacts.
Import GoInt.

Lemma wrap64_id z : in_int64 z -> wrap64 z = z.
Proof.
  unfold in_int64, wrap64. intros H.
  rewrite Z.mod_small; lia.
Qed.

Lemma wrap64_range z : in_int64 (wrap64 z).
Proof.
  unfold in_int64, wrap64.
  pose proof (Z.mod_pos_bound (z + 2 ^ 63) (2 ^ 64) ltac:(lia)). lia.
Qed.

Lemma wrap64_add_l a b : wrap64 (wrap64 a + b) = wrap64 (a + b).
Proof.
  unfold wrap64.
  replace (((a + 2 ^ 63) mod 2 ^ 64 - 2 ^ 63 + b + 2 ^ 63))
    with ((a + 2 ^ 63) mod 2 ^ 64 + b) by lia.
  rewrite Zplus_mod_idemp_l. f_equal. f_equal. lia.
Qed.

End GoIntFacts.

(** ** [Clean], [Join], [Dir] and [Base] on examples *)

Module FilepathFacts.
Import GoStrings Filepath.

Example Clean_examples :
  Clean "a//b/./c/.." = "a/b" /\ Clean "../../x" = "../../x" /\ Clean "/../a" = "/a"
  /\ Clean "a/.." = "." /\ Clean "" = "." /\ Clean "a/../../b/" = "../b"
  /\ Clean "/" = "/" /\ Clean "data/docs/" = "data/docs".
Proof. repeat split; reflexivity. Qed.

Example Join_examples :
  Join ["data"; "docs"] = "data/docs" /\ Join ["data/docs"; ""; "x"] = "data/docs/x"
  /\ Join [""; ""] = "" /\ Join [""; "a/b"; "../c"] = "a/c" /\ Join ["a"; ""] = "a".
Proof. repeat split; reflexivity. Qed.

Example Dir_Base_examples :
  Dir "data/docs/a" = "data/docs" /\ Dir "a" = "." /\ Dir "/a" = "/" /\ Dir "a/b/" = "a/b"
  /\ Base "a/b" = "b" /\ Base "a/b//" = "b" /\ Base "" = "." /\ Base "///" = "/" /\ Base "x" = "x".
Proof. repeat split; reflexivity. Qed.

End FilepathFacts.

(** ** Paths: splitting, joining and cleaning *)

Module PathFacts.
Import GoStrings Filepath.

Lemma split_slash_nonempty s : split_slash s <> [].
Proof.
  destruct s as [|c s]; simpl; [done|].
  destruct (Ascii.eqb c slash); [done|]. by destruct (split_slash s).
Qed.

Lemma append_cons x (a b : string) : String x a +:+ b = String x (a +:+ b).
Proof. reflexivity. Qed.

Lemma append_nil_l (b : string) : "" +:+ b = b.
Proof. reflexivity. Qed.

Lemma append_assoc (a b c : string) : (a +:+ b) +:+ c = a +:+ (b +:+ c).
Proof.
  induction a as [|x a IH]; [done|]. rewrite !append_cons. by rewrite IH.
Qed.

Lemma append_nil_r (a : string) : a +:+ "" = a.
Proof. induction a as [|x a IH]; [done|]. rewrite append_cons. by rewrite IH. Qed.

(** Splitting distributes over a slash. *)
Lemma split_slash_app a b :
  split_slash (a +:+ String slash b) = split_slash a ++ split_slash b.
Proof.
  induction a as [|c a IH]; [done|]. rewrite append_cons. simpl.
  destruct (Ascii.eqb c slash); [by rewrite IH|].
  rewrite IH. pose proof (split_slash_nonempty a).
  by destruct (split_slash a).
Qed.

Lemma split_slash_plain s : has_slash s = false -> split_slash s = [s].
Proof.
  induction s as [|c s IH]; simpl; [done|].
  destruct (Ascii.eqb c slash); [done|]. simpl. intros H. by rewrite IH.
Qed.

(** The pieces of a split have no slash in them. *)
Lemma split_slash_pieces s : Forall (fun c => has_slash c = false) (split_slash s).
Proof.
  induction s as [|c s IH]; simpl; [by repeat constructor|].
  destruct (Ascii.eqb c slash) eqn:E; [by constructor|].
  destruct (split_slash s) as [|h t].
  - constructor; [|constructor]. simpl. by rewrite E.
  - inversion_clear IH. constructor; [|done]. simpl. by rewrite E.
Qed.

(** Joining and splitting again gives the pieces back. *)
Lemma split_join_slash (l : list string) :
  l <> [] -> Forall (fun c => has_slash c = false) l -> split_slash (join_slash l) = l.
Proof.
  induction l as [|x l IH]; [done|]. intros _ H. inversion_clear H as [|?? Hx Hl].
  destruct l as [|y l]; simpl.
  - by apply split_slash_plain.
  - rewrite split_slash_app, (split_slash_plain x Hx). simpl. f_equal.
    by apply IH.
Qed.

(** A name [Clean] keeps as it is: not empty, not [.], not [..]. *)
Definition simple (c : string) : bool :=
  negb (String.eqb c "" || String.eqb c "." || String.eqb c "..").

(** A name of a directory entry: simple and without a slash. *)
Definition plain (c : string) : bool := simple c && negb (has_slash c).

Lemma simple_tests c :
  simple c = true ->
  String.eqb c "" = false /\ String.eqb c "." = false /\ String.eqb c ".." = false.
Proof.
  unfold simple. destruct (String.eqb c ""), (String.eqb c "."), (String.eqb c "..");
    simpl; intros; try done.
Qed.

Lemma clean_go_snoc r cs : forall acc name,
  simple name = true -> clean_go r acc (cs ++ [name]) = clean_go r acc cs ++ [name].
Proof.
  induction cs as [|c cs IH]; intros acc name Hn; simpl.
  - destruct (simple_tests _ Hn) as (-> & -> & ->). by simpl.
  - destruct (String.eqb c "" || String.eqb c "."); [by apply IH|].
    destruct (String.eqb c ".."); [|by apply IH].
    destruct acc as [|top acc]; [destruct r; by apply IH|].
    destruct (String.eqb top ".."); by apply IH.
Qed.

Lemma clean_go_snoc_empty r cs : forall acc,
  clean_go r acc (cs ++ [""]) = clean_go r acc cs.
Proof.
  induction cs as [|c cs IH]; intros acc; simpl; [done|].
  destruct (String.eqb c "" || String.eqb c "."); [by apply IH|].
  destruct (String.eqb c ".."); [|by apply IH].
  destruct acc as [|top acc]; [destruct r; by apply IH|].
  destruct (String.eqb top ".."); by apply IH.
Qed.

(** What [clean_go] puts out was in the stack or in the input. *)
Lemma clean_go_elem r cs : forall acc x,
  x ∈ clean_go r acc cs -> x ∈ acc \/ x ∈ cs.
Proof.
  induction cs as [|c cs IH]; intros acc x; simpl.
  - intros H. left. apply list_elem_of_In, in_rev. by apply list_elem_of_In.
  - assert (forall acc', (forall y, y ∈ acc' -> y ∈ acc \/ y = c) ->
              x ∈ clean_go r acc' cs -> x ∈ acc \/ x ∈ c :: cs) as Hstep.
    { intros acc' Hacc Hx. destruct (IH _ _ Hx) as [H|H].
      - destruct (Hacc _ H) as [?| ->]; [by left|right; constructor].
      - right. by constructor. }
    destruct (String.eqb c "" || String.eqb c "."); [apply Hstep; by left|].
    destruct (String.eqb c "..").
    + destruct acc as [|top acc].
      * destruct r; apply Hstep; [by left|].
        intros y Hy. apply list_elem_of_singleton in Hy. by right.
      * destruct (String.eqb top "..").
        -- apply Hstep. intros y Hy. apply elem_of_cons in Hy as [->|Hy]; [by right|by left].
        -- apply Hstep. intros y Hy. left. by constructor.
    + apply Hstep. intros y Hy. apply elem_of_cons in Hy as [->|Hy]; [by right|by left].
Qed.

(** Nor is any of it empty or a dot. *)
Lemma clean_go_kept r cs : forall acc,
  Forall (fun c => String.eqb c "" = false /\ String.eqb c "." = false) acc ->
  Forall (fun c => String.eqb c "" = false /\ String.eqb c "." = false) (clean_go r acc cs).
Proof.
  induction cs as [|c cs IH]; intros acc Hacc; simpl.
  - by apply Forall_rev.
  - destruct (String.eqb c "") eqn:E1; [by apply IH|].
    destruct (String.eqb c ".") eqn:E2; [by apply IH|]. simpl.
    assert (Forall (fun c => String.eqb c "" = false /\ String.eqb c "." = false) (c :: acc))
      by (by constructor).
    destruct (String.eqb c ".."); [|by apply IH].
    destruct acc as [|top acc]; [destruct r; by apply IH|].
    destruct (String.eqb top ".."); [by apply IH|].
    apply IH. by inversion Hacc.
Qed.

Definition is_dotdot (c : string) : bool := String.eqb c "..".

(** The stack of a relative path, top first: names above, [..]s below. *)
Fixpoint settled (acc : list string) : bool :=
  match acc with
  | [] => true
  | top :: rest => if is_dotdot top then forallb is_dotdot rest else settled rest
  end.

Lemma clean_go_settled cs : forall acc,
  settled acc = true ->
  exists acc', clean_go false acc cs = rev acc' /\ settled acc' = true.
Proof.
  induction cs as [|c cs IH]; intros acc Hacc; simpl; [by exists acc|].
  destruct (String.eqb c "" || String.eqb c "."); [by apply IH|].
  destruct (String.eqb c "..") eqn:Ec.
  - destruct acc as [|top acc]; [apply IH; simpl; unfold is_dotdot; by rewrite Ec|].
    destruct (String.eqb top "..") eqn:Et.
    + apply IH. simpl in *. unfold is_dotdot in *. rewrite Ec. rewrite Et in *.
      simpl. done.
    + apply IH. simpl in Hacc. unfold is_dotdot in Hacc. by rewrite Et in Hacc.
  - apply IH. simpl. unfold is_dotdot. by rewrite Ec.
Qed.

Lemma clean_go_dotdots cs : forall acc,
  forallb is_dotdot acc = true -> forallb is_dotdot cs = true ->
  clean_go false acc cs = rev acc ++ cs.
Proof.
  induction cs as [|c cs IH]; intros acc Hacc Hcs; simpl; [by rewrite app_nil_r|].
  simpl in Hcs. apply andb_true_iff in Hcs as [Hc Hcs].
  unfold is_dotdot in Hc. apply String.eqb_eq in Hc as ->. simpl.
  destruct acc as [|top acc].
  - rewrite IH; [done|done|done].
  - simpl in Hacc. apply andb_true_iff in Hacc as [Ht Hacc].
    unfold is_dotdot in Ht. rewrite Ht.
    rewrite IH; [|simpl; unfold is_dotdot at 1; by rewrite Ht, Hacc|done].
    simpl. by rewrite <- !app_assoc.
Qed.

(** Cleaning what is clean changes nothing. *)
Lemma clean_go_fix acc :
  settled acc = true ->
  Forall (fun c => String.eqb c "" = false /\ String.eqb c "." = false) acc ->
  clean_go false [] (rev acc) = rev acc.
Proof.
  induction acc as [|top rest IH]; intros Hs Hk; [done|].
  inversion_clear Hk as [|?? [H1 H2] Hk']. simpl in *.
  destruct (is_dotdot top) eqn:Et.
  - apply (clean_go_dotdots _ []); [done|].
    rewrite forallb_app. simpl. rewrite Et. simpl.
    rewrite andb_true_r. rewrite forallb_forall in Hs. apply forallb_forall.
    intros z Hz. apply Hs. by apply in_rev.
  - rewrite clean_go_snoc; [by rewrite IH|].
    unfold simple. unfold is_dotdot in Et. by rewrite H1, H2, Et.
Qed.

Lemma is_rooted_append (a b : string) : a <> "" -> is_rooted (a +:+ b) = is_rooted a.
Proof. by destruct a. Qed.

Lemma join_slash_cons c (l : list string) :
  l <> [] -> join_slash (c :: l) = c +:+ String slash (join_slash l).
Proof. by destruct l. Qed.

Lemma is_rooted_join c (l : list string) :
  String.eqb c "" = false -> has_slash c = false -> is_rooted (join_slash (c :: l)) = false.
Proof.
  intros Hc Hs. destruct c as [|x c]; [done|]. simpl in Hs.
  apply orb_false_iff in Hs as [Hx _].
  destruct l as [|y l]; [simpl; by rewrite Hx|].
  rewrite join_slash_cons by done. rewrite append_cons. simpl. by rewrite Hx.
Qed.

(** The elements of a relative path, cleaned: clean, and without a slash. *)
Lemma elements_clean q :
  let E := clean_go false [] (split_slash q) in
  clean_go false [] E = E
  /\ Forall (fun c => has_slash c = false) E
  /\ Forall (fun c => String.eqb c "" = false /\ String.eqb c "." = false) E.
Proof.
  intros E.
  destruct (clean_go_settled (split_slash q) [] eq_refl) as (acc' & HE & Hs).
  assert (Forall (fun c => String.eqb c "" = false /\ String.eqb c "." = false) E) as Hk
    by (by apply clean_go_kept).
  split; [|split; [|done]].
  - subst E. rewrite HE in *. apply clean_go_fix; [done|].
    apply Forall_forall. intros x Hx. rewrite Forall_forall in Hk. apply Hk.
    apply list_elem_of_In, in_rev. rewrite rev_involutive. by apply list_elem_of_In.
  - apply Forall_forall. intros x Hx.
    destruct (clean_go_elem _ _ _ _ Hx) as [H|H]; [by apply elem_of_nil in H|].
    pose proof (split_slash_pieces q) as Hp. rewrite Forall_forall in Hp. by apply Hp.
Qed.

(** The kernel resolves a cleaned path to what it resolves the path to. *)
Lemma resolve_Clean q : q <> "" -> Storage.resolve (Clean q) = Storage.resolve q.
Proof.
  intros Hq. unfold Storage.resolve, Clean, elements_of.
  destruct (String.eqb_spec q "") as [|_]; [done|].
  destruct (is_rooted q) eqn:Hr; [done|].
  destruct (elements_clean q) as (Hfix & Hns & Hk).
  destruct (clean_go false [] (split_slash q)) as [|c l] eqn:HE; [done|].
  inversion Hns as [|?? Hc _]. inversion Hk as [|?? [Hc1 _] _]. subst.
  rewrite (is_rooted_join c l Hc1 Hc).
  rewrite split_join_slash by done. by rewrite Hfix.
Qed.

Lemma plain_parts name :
  plain name = true -> simple name = true /\ has_slash name = false.
Proof.
  unfold plain. intros H. apply andb_true_iff in H as [H1 H2].
  split; [done|]. by apply negb_true_iff.
Qed.

(** One plain name further down. *)
Lemma resolve_child q name :
  q <> "" -> plain name = true ->
  Storage.resolve (q +:+ String slash name) = (fun base => base ++ [name]) <$> Storage.resolve q.
Proof.
  intros Hq Hn. destruct (plain_parts _ Hn) as [Hs Hns].
  unfold Storage.resolve. rewrite (is_rooted_append q _ Hq).
  destruct (is_rooted q); [done|].
  rewrite split_slash_app, (split_slash_plain name Hns), clean_go_snoc by done.
  rewrite existsb_app.
  change (existsb (String.eqb "..") [name]) with (String.eqb ".." name || false).
  destruct (simple_tests _ Hs) as (_ & _ & Hdd). rewrite String.eqb_sym in Hdd. rewrite Hdd.
  rewrite !orb_false_r. by destruct (existsb _ _).
Qed.

(** A slash at the end changes nothing. *)
Lemma resolve_trailing_slash q :
  q <> "" -> Storage.resolve (q +:+ String slash "") = Storage.resolve q.
Proof.
  intros Hq. unfold Storage.resolve. rewrite (is_rooted_append q _ Hq).
  destruct (is_rooted q); [done|].
  rewrite split_slash_app. simpl. by rewrite clean_go_snoc_empty.
Qed.

Lemma Clean_nonempty q : Clean q <> "".
Proof.
  unfold Clean, elements_of. destruct (String.eqb q ""); [done|].
  destruct (is_rooted q) eqn:Hr; [done|].
  destruct (elements_clean q) as (_ & _ & Hk).
  destruct (clean_go false [] (split_slash q)) as [|c l]; [done|].
  inversion_clear Hk as [|?? [Hc _] _].
  destruct c as [|x c]; [done|]. destruct l; [done|].
  rewrite join_slash_cons by done. by rewrite append_cons.
Qed.

Section Joins.

Variable d : string.
Hypothesis d_nonempty : d <> "".

Lemma Join_cons (rest : list string) : Join (d :: rest) = Clean (join_slash (d :: rest)).
Proof. simpl. by destruct (String.eqb_spec d ""). Qed.

Lemma resolve_Join1 : Storage.resolve (Join [d]) = Storage.resolve d.
Proof. rewrite Join_cons. simpl. by apply resolve_Clean. Qed.

Lemma resolve_Join2_empty : Storage.resolve (Join [d; ""]) = Storage.resolve d.
Proof.
  rewrite Join_cons. rewrite resolve_Clean by (simpl; by destruct d).
  simpl. by apply resolve_trailing_slash.
Qed.

Lemma resolve_Join2 name :
  plain name = true ->
  Storage.resolve (Join [d; name]) = (fun base => base ++ [name]) <$> Storage.resolve d.
Proof.
  intros Hn. rewrite Join_cons. rewrite resolve_Clean by (simpl; by destruct d).
  simpl. by apply resolve_child.
Qed.

Lemma resolve_Join3 p name :
  plain name = true ->
  Storage.resolve (Join [d; p; name])
  = (fun base => base ++ [name]) <$> Storage.resolve (Join [d; p]).
Proof.
  intros Hn. rewrite !Join_cons. rewrite !resolve_Clean by (simpl; by destruct d).
  replace (join_slash [d; p; name]) with (join_slash [d; p] +:+ String slash name).
  2: { cbn [join_slash]. rewrite append_assoc. by rewrite append_cons. }
  apply resolve_child; [cbn [join_slash]; by destruct d|done].
Qed.

End Joins.

(** Below a cleaned path. *)
Lemma resolve_Join_Clean q name :
  plain name = true ->
  Storage.resolve (Join [Clean q; name])
  = (fun base => base ++ [name]) <$> Storage.resolve (Clean q).
Proof. intros Hn. apply resolve_Join2; [apply Clean_nonempty|done]. Qed.

(** *** Names made of word bytes *)

Lemma has_slash_append (a b : string) : has_slash (a +:+ b) = has_slash a || has_slash b.
Proof.
  induction a as [|x a IH]; [done|]. rewrite append_cons. simpl.
  by rewrite IH, orb_assoc.
Qed.

(** A name that does not start with a dot, and is not empty. *)
Definition starts_well (s : string) : bool :=
  match s with
  | String x _ => negb (Ascii.eqb x ".")
  | EmptyString => false
  end.

Lemma starts_well_simple s : starts_well s = true -> simple s = true.
Proof.
  destruct s as [|x s]; [done|]. simpl. intros H. apply negb_true_iff in H.
  unfold simple. simpl.
  destruct x as [[] [] [] [] [] [] [] []]; try done.
Qed.

Lemma starts_well_append (a b : string) : starts_well a = true -> starts_well (a +:+ b) = true.
Proof. by destruct a. Qed.

Fixpoint all_bytes (P : ascii -> bool) (s : string) : bool :=
  match s with
  | EmptyString => true
  | String c s' => P c && all_bytes P s'
  end.

Lemma all_bytes_filter P s : all_bytes P (filter_bytes P s) = true.
Proof.
  induction s as [|c s IH]; [done|]. simpl.
  destruct (P c) eqn:E; [|done]. simpl. by rewrite E.
Qed.

Lemma all_bytes_map P Q f s :
  (forall c, P c = true -> Q (f c) = true) ->
  all_bytes P s = true -> all_bytes Q (map_bytes f s) = true.
Proof.
  intros Hf. induction s as [|c s IH]; [done|]. simpl.
  intros H. apply andb_true_iff in H as [Hc Hs]. by rewrite (Hf c Hc), IH.
Qed.

Definition name_byte (c : ascii) : bool :=
  negb (Ascii.eqb c slash) && negb (Ascii.eqb c ".").

Lemma all_bytes_name s :
  all_bytes name_byte s = true -> s <> "" -> starts_well s = true /\ has_slash s = false.
Proof.
  intros H Hs. split.
  - destruct s as [|x s]; [done|]. simpl in *. apply andb_true_iff in H as [Hx _].
    unfold name_byte in Hx. by apply andb_true_iff in Hx as [_ ->].
  - clear Hs. induction s as [|x s IH]; [done|]. simpl in *.
    apply andb_true_iff in H as [Hx Hs]. rewrite (IH Hs).
    unfold name_byte in Hx. apply andb_true_iff in Hx as [Hx _].
    apply negb_true_iff in Hx. by rewrite Hx.
Qed.

Lemma length_append (a b : string) :
  String.length (a +:+ b) = (String.length a + String.length b)%nat.
Proof. induction a as [|x a IH]; [done|]. rewrite append_cons. simpl. by rewrite IH. Qed.

(** A name three bytes long or longer is simple. *)
Lemma long_simple s : (3 <= String.length s)%nat -> simple s = true.
Proof.
  intros H. unfold simple.
  destruct (String.eqb_spec s "") as [->|_]; [simpl in H; lia|].
  destruct (String.eqb_spec s ".") as [->|_]; [simpl in H; lia|].
  destruct (String.eqb_spec s "..") as [->|_]; [simpl in H; lia|]. done.
Qed.

(** The name of a content file, for a title without a slash. *)
Lemma md_name_plain title : has_slash title = false -> plain (title +:+ ".md") = true.
Proof.
  intros H. unfold plain. rewrite has_slash_append, H. simpl. rewrite andb_true_r.
  apply long_simple. rewrite length_append. simpl. lia.
Qed.

End PathFacts.

(** ** The search index *)

Module SearchFacts.
Import GoInt GoIntFacts GoStrings Search.

Example index_then_search :
  let se := index_all canonical_order
              [mkDoc "a" "Cats" "cats and dogs"; mkDoc "b" "Dog" "one cat"] engine0 in
  sortedResults ascii_Fields ToLowerASCII canonical_order se "CAT!"
    = [ {| sPath := "data/a"; sScore := 4 |}; {| sPath := "data/b"; sScore := 4 |} ]
  /\ index se !! "cats" = Some {[ "data/a" := 2 ]}
  /\ index se !! "cat" = Some {[ "data/a" := 2; "data/b" := 2 ]}.
Proof. vm_compute. repeat split; reflexivity. Qed.


(** *** The sort of [Search] *)

(** The order the result list is put in: higher score first, and among equal
    scores the smaller path first. *)
Definition ranks_before (a b : scored) : Prop :=
  sScore b < sScore a \/ (sScore a = sScore b /\ String.le (sPath a) (sPath b)).

(** The same, strictly: what holds between two entries with different paths. *)
Definition ranks_strictly_before (a b : scored) : Prop :=
  sScore b < sScore a \/ (sScore a = sScore b /\ String.ltb (sPath a) (sPath b) = true).

(** The test under which the loop body exchanges [a = s[i]] and [b = s[j]]. *)
Definition should_swap (a b : scored) : bool :=
  if sScore b =? sScore a then String.ltb (sPath b) (sPath a)
  else sScore b >? sScore a.

(** The inner loop as a recursion on the part of the slice after [i]: it
    carries the element standing at [i] and leaves the rest behind. *)
Fixpoint select (x : scored) (rest : list scored) : scored * list scored :=
  match rest with
  | [] => (x, [])
  | y :: ys =>
      if should_swap x y then (let '(m, r) := select y ys in (m, x :: r))
      else (let '(m, r) := select x ys in (m, y :: r))
  end.

(** The outer loop as a recursion: [n] passes over the unsorted part. *)
Fixpoint sel_sort (n : nat) (l : list scored) : list scored :=
  match n, l with
  | S n', x :: rest => let '(m, r) := select x rest in m :: sel_sort n' r
  | _, _ => l
  end.

Lemma ltb_negb_leb (a b : string) : String.ltb b a = negb (String.leb a b).
Proof.
  unfold String.ltb, String.leb. rewrite (String.compare_antisym a b).
  by destruct (String.compare b a).
Qed.

Lemma should_swap_true a b : should_swap a b = true -> ranks_before b a.
Proof.
  unfold should_swap, ranks_before. destruct (Z.eqb_spec (sScore b) (sScore a)) as [E|E].
  - rewrite ltb_negb_leb. intros H. right. split; [done|].
    destruct (String.le_total (sPath a) (sPath b)) as [Hle|Hle]; [|done].
    unfold String.le in Hle. apply Is_true_eq_true in Hle. by rewrite Hle in H.
  - intros H. left. lia.
Qed.

Lemma should_swap_false a b : should_swap a b = false -> ranks_before a b.
Proof.
  unfold should_swap, ranks_before. destruct (Z.eqb_spec (sScore b) (sScore a)) as [E|E].
  - rewrite ltb_negb_leb. intros H. right. split; [done|].
    unfold String.le. apply negb_false_iff in H. by rewrite H.
  - intros H. left. lia.
Qed.

#[local] Instance ranks_before_refl : Reflexive ranks_before.
Proof. intros a. right. split; [done|]. reflexivity. Qed.

#[local] Instance ranks_before_trans : Transitive ranks_before.
Proof.
  intros a b c [H1|[E1 P1]] [H2|[E2 P2]]; unfold ranks_before.
  - left. lia.
  - left. lia.
  - left. lia.
  - right. split; [lia|]. by etrans.
Qed.

#[local] Instance ranks_before_antisym : AntiSymm (=) ranks_before.
Proof.
  intros [pa sa] [pb sb] [H1|[E1 P1]] [H2|[E2 P2]]; simpl in *; try lia.
  f_equal; [|done]. by apply (anti_symm String.le).
Qed.

Lemma sort_step_spec i l j a b :
  l !! i = Some a -> l !! j = Some b ->
  sort_step i l j = if should_swap a b then <[j := a]> (<[i := b]> l) else l.
Proof.
  intros Hi Hj. unfold sort_step, swap, should_swap. rewrite Hi, Hj.
  destruct (sScore b =? sScore a); [|by destruct (sScore b >? sScore a)].
  by destruct (String.ltb (sPath b) (sPath a)).
Qed.

(** The inner loop, from [j = i + 1 + length done] on, with [x] at index
    [i], is [select x todo]. *)
Lemma sort_inner_select (pre : list scored) (x : scored) (seen todo : list scored) :
  foldl (sort_step (length pre)) (pre ++ x :: seen ++ todo)
        (seq (S (length pre) + length seen) (length todo))
  = pre ++ (select x todo).1 :: seen ++ (select x todo).2.
Proof.
  revert x seen. induction todo as [|y ys IH]; intros x seen; simpl; [done|].
  assert ((pre ++ x :: seen ++ y :: ys) !! length pre = Some x) as Hi
    by by apply list_lookup_middle.
  assert ((pre ++ x :: seen ++ y :: ys) !! S (length pre + length seen) = Some y) as Hj.
  { replace (pre ++ x :: seen ++ y :: ys) with ((pre ++ x :: seen) ++ y :: ys)
      by (by rewrite <- app_assoc).
    apply list_lookup_middle. rewrite length_app. simpl. lia. }
  rewrite (sort_step_spec _ _ _ _ _ Hi Hj).
  destruct (should_swap x y) eqn:Hsw.
  - replace (<[S (length pre + length seen):=x]> (<[length pre:=y]> (pre ++ x :: seen ++ y :: ys)))
      with (pre ++ y :: (seen ++ [x]) ++ ys).
    + specialize (IH y (seen ++ [x])). rewrite length_app in IH. simpl in IH.
      replace (S (length pre + (length seen + 1))) with (S (S (length pre + length seen))) in IH by lia.
      rewrite IH. destruct (select y ys) as [m r]. simpl.
      by rewrite <- app_assoc.
    + rewrite insert_app_r_alt by lia. rewrite Nat.sub_diag. simpl.
      rewrite insert_app_r_alt by lia.
      replace (S (length pre + length seen) - length pre)%nat with (S (length seen)) by lia.
      simpl. rewrite insert_app_r_alt by lia. rewrite Nat.sub_diag. simpl.
      by rewrite <- app_assoc.
  - specialize (IH x (seen ++ [y])). rewrite length_app in IH. simpl in IH.
    replace (S (length pre + (length seen + 1))) with (S (S (length pre + length seen))) in IH by lia.
    rewrite <- app_assoc in IH. simpl in IH. rewrite IH.
    destruct (select x ys) as [m r]. simpl. by rewrite <- app_assoc.
Qed.

Lemma select_length x rest : length (select x rest).2 = length rest.
Proof.
  revert x. induction rest as [|y ys IH]; intros x; simpl; [done|].
  destruct (should_swap x y).
  - specialize (IH y). destruct (select y ys). simpl in *. by rewrite IH.
  - specialize (IH x). destruct (select x ys). simpl in *. by rewrite IH.
Qed.

Lemma select_perm x rest : (select x rest).1 :: (select x rest).2 ≡ₚ x :: rest.
Proof.
  revert x. induction rest as [|y ys IH]; intros x; simpl; [done|].
  destruct (should_swap x y).
  - specialize (IH y). destruct (select y ys) as [m r]. simpl in *.
    etrans; [apply Permutation_swap|]. by rewrite IH.
  - specialize (IH x). destruct (select x ys) as [m r]. simpl in *.
    etrans; [apply Permutation_swap|]. rewrite IH. apply Permutation_swap.
Qed.

Lemma select_least x rest :
  ranks_before (select x rest).1 x /\ Forall (ranks_before (select x rest).1) (select x rest).2.
Proof.
  revert x. induction rest as [|y ys IH]; intros x; simpl; [by split|].
  destruct (should_swap x y) eqn:Hsw.
  - destruct (IH y) as [Hy Hr]. destruct (select y ys) as [m r]. simpl in *.
    assert (ranks_before m x) by (etrans; [done|by apply should_swap_true]).
    split; [done|]. by constructor.
  - destruct (IH x) as [Hx Hr]. destruct (select x ys) as [m r]. simpl in *.
    split; [done|]. constructor; [|done].
    etrans; [done|by apply should_swap_false].
Qed.

Lemma sort_inner_spec (pre : list scored) (x : scored) (rest : list scored) :
  sort_inner (pre ++ x :: rest) (length pre)
  = pre ++ (select x rest).1 :: (select x rest).2.
Proof.
  unfold sort_inner. rewrite length_app. simpl.
  replace (length pre + S (length rest) - S (length pre))%nat with (length rest) by lia.
  pose proof (sort_inner_select pre x [] rest) as H. simpl in H.
  by rewrite Nat.add_0_r in H.
Qed.

(** The two loops together are [sel_sort]. *)
Lemma sort_outer_spec n : forall pre suf : list scored,
  length suf = n ->
  foldl sort_inner (pre ++ suf) (seq (length pre) n) = pre ++ sel_sort n suf.
Proof.
  induction n as [|n IH]; intros pre suf Hn; simpl.
  - by destruct suf.
  - destruct suf as [|x rest]; [done|]. simpl in Hn.
    rewrite sort_inner_spec.
    pose proof (select_length x rest) as Hl.
    destruct (select x rest) as [m r]. simpl in *.
    specialize (IH (pre ++ [m]) r). rewrite length_app in IH. simpl in IH.
    replace (length pre + 1)%nat with (S (length pre)) in IH by lia.
    rewrite <- app_assoc in IH. simpl in IH. rewrite IH by lia.
    by rewrite <- app_assoc.
Qed.

Lemma sortResults_sel_sort l : sortResults l = sel_sort (length l) l.
Proof. apply (sort_outer_spec (length l) [] l eq_refl). Qed.

Lemma sel_sort_perm n : forall l, sel_sort n l ≡ₚ l.
Proof.
  induction n as [|n IH]; intros l; simpl; [done|].
  destruct l as [|x rest]; [done|].
  pose proof (select_perm x rest) as Hp.
  destruct (select x rest) as [m r]. simpl in *.
  by rewrite IH.
Qed.

Lemma sel_sort_sorted n : forall l,
  (length l <= n)%nat -> StronglySorted ranks_before (sel_sort n l).
Proof.
  induction n as [|n IH]; intros l Hn.
  - destruct l; [|simpl in Hn; lia]. constructor.
  - destruct l as [|x rest]; [constructor|]. simpl in *.
    pose proof (select_least x rest) as [_ Hr].
    pose proof (select_length x rest) as Hl.
    destruct (select x rest) as [m r]. simpl in *.
    constructor; [apply IH; lia|]. by rewrite sel_sort_perm.
Qed.

Lemma sortResults_perm l : sortResults l ≡ₚ l.
Proof. rewrite sortResults_sel_sort. apply sel_sort_perm. Qed.

Lemma sortResults_sorted l : StronglySorted ranks_before (sortResults l).
Proof. rewrite sortResults_sel_sort. by apply sel_sort_sorted. Qed.

(** The sorted list does not depend on the order the entries came in. *)
Lemma sortResults_order_free l1 l2 : l1 ≡ₚ l2 -> sortResults l1 = sortResults l2.
Proof.
  intros H. apply (StronglySorted_unique ranks_before).
  - apply sortResults_sorted.
  - apply sortResults_sorted.
  - by rewrite !sortResults_perm.
Qed.

(** *** Sequences of index operations *)

Inductive op :=
  | OpIndex (doc : Document)
  | OpDelete (docPath : string).

Section Runs.

Variable Fields : string -> list string.
Variable ToLower : string -> string.
Variable o : MapOrder.

Local Abbreviation IndexDocument := (IndexDocument Fields ToLower o).
Local Abbreviation DeleteDocument := (DeleteDocument Fields ToLower o).
Local Abbreviation Search := (Search Fields ToLower o).

Definition step (se : SearchEngine) (x : op) : SearchEngine :=
  match x with
  | OpIndex doc => (IndexDocument se doc).1
  | OpDelete docPath => (DeleteDocument se docPath).1
  end.

Definition run (ops : list op) (se : SearchEngine) : SearchEngine := foldl step se ops.

(** How many times [IndexDocument] reaches the stemmer: one per word and
    language.  No count in the index can exceed the sum over a run. *)
Definition work_of (se : SearchEngine) (x : op) : Z :=
  match x with
  | OpIndex doc =>
      Z.of_nat (length (Fields (Title doc +:+ " " +:+ Content doc)))
      * Z.of_nat (length (langs_of o se))
  | OpDelete _ => 0
  end.

Definition work (se : SearchEngine) (ops : list op) : Z :=
  foldr (fun x acc => work_of se x + acc) 0 ops.

(** Every bucket of the index has an entry. *)
Definition buckets_nonempty (idx : gmap string (gmap string Z)) : Prop :=
  forall stem bucket, idx !! stem = Some bucket -> bucket <> ∅.

(** Every count of the index lies between 1 and [B]. *)
Definition counts_within (B : Z) (idx : gmap string (gmap string Z)) : Prop :=
  forall stem bucket p c, idx !! stem = Some bucket -> bucket !! p = Some c -> 1 <= c <= B.


Lemma bump_nonempty stemmed fullPath idx :
  buckets_nonempty idx -> buckets_nonempty (bump stemmed fullPath idx).
Proof.
  intros H stem bucket. unfold bump.
  destruct (decide (stemmed = stem)) as [->|Hne].
  - rewrite lookup_insert_eq. intros [= <-]. apply insert_non_empty.
  - rewrite lookup_insert_ne by done. apply H.
Qed.

Lemma unlink_nonempty stemmed fullPath idx :
  buckets_nonempty idx -> buckets_nonempty (unlink stemmed fullPath idx).
Proof.
  intros H stem bucket. unfold unlink.
  destruct (idx !! stemmed) as [b|] eqn:Hb; [|apply H].
  destruct (decide (size (delete fullPath b) = 0%nat)) as [Hz|Hnz].
  - destruct (decide (stemmed = stem)) as [->|Hne].
    + by rewrite lookup_delete_eq.
    + rewrite lookup_delete_ne by done. apply H.
  - destruct (decide (stemmed = stem)) as [->|Hne].
    + rewrite lookup_insert_eq. intros [= <-] Hempty.
      apply Hnz. rewrite Hempty. apply map_size_empty.
    + rewrite lookup_insert_ne by done. apply H.
Qed.

Lemma counts_within_mono B B' idx :
  B <= B' -> counts_within B idx -> counts_within B' idx.
Proof. intros HB H stem bucket p c Hs Hp. specialize (H _ _ _ _ Hs Hp). lia. Qed.

Lemma bump_counts B stemmed fullPath idx :
  0 <= B -> B + 1 < 2 ^ 63 ->
  counts_within B idx -> counts_within (B + 1) (bump stemmed fullPath idx).
Proof.
  intros HB0 HB H stem bucket p c. unfold bump.
  destruct (decide (stemmed = stem)) as [->|Hne].
  - rewrite lookup_insert_eq. intros [= <-].
    destruct (decide (fullPath = p)) as [->|Hnp].
    + rewrite lookup_insert_eq. intros [= <-].
      assert (0 <= default 0 (default ∅ (idx !! stem) !! p) <= B) as Hold.
      { destruct (idx !! stem) as [b|] eqn:Hb; simpl.
        - destruct (b !! p) as [c|] eqn:Hc; simpl; [|lia].
          specialize (H _ _ _ _ Hb Hc). lia.
        - rewrite lookup_empty. simpl. lia. }
      rewrite wrap64_id; [lia|]. unfold in_int64. lia.
    + rewrite lookup_insert_ne by done.
      destruct (idx !! stem) as [b|] eqn:Hb; simpl.
      * intros Hc. specialize (H _ _ _ _ Hb Hc). lia.
      * by rewrite lookup_empty.
  - rewrite lookup_insert_ne by done. intros Hs Hp.
    specialize (H _ _ _ _ Hs Hp). lia.
Qed.

Lemma unlink_counts B stemmed fullPath idx :
  counts_within B idx -> counts_within B (unlink stemmed fullPath idx).
Proof.
  intros H stem bucket p c. unfold unlink.
  destruct (idx !! stemmed) as [b|] eqn:Hb; [|apply H].
  destruct (decide (size (delete fullPath b) = 0%nat)) as [Hz|Hnz].
  - destruct (decide (stemmed = stem)) as [->|Hne].
    + by rewrite lookup_delete_eq.
    + rewrite lookup_delete_ne by done. apply H.
  - destruct (decide (stemmed = stem)) as [->|Hne].
    + rewrite lookup_insert_eq. intros [= <-] Hp.
      apply lookup_delete_Some in Hp as [_ Hp]. by apply (H _ _ _ _ Hb Hp).
    + rewrite lookup_insert_ne by done. apply H.
Qed.

Lemma index_word_nonempty se fullPath idx word :
  buckets_nonempty idx -> buckets_nonempty (index_word ToLower o se fullPath idx word).
Proof.
  unfold index_word. generalize (langs_of o se). intros langs. revert idx.
  induction langs as [|lang langs IH]; intros idx H; simpl; [done|].
  apply IH. unfold index_lang.
  destruct (stemmer se _ lang false); [|done].
  destruct (String.eqb stem ""); [done|]. by apply bump_nonempty.
Qed.

Lemma index_word_counts B se fullPath idx word :
  0 <= B -> B + Z.of_nat (length (langs_of o se)) < 2 ^ 63 ->
  counts_within B idx ->
  counts_within (B + Z.of_nat (length (langs_of o se)))
    (index_word ToLower o se fullPath idx word).
Proof.
  unfold index_word. generalize (langs_of o se). intros langs. revert B idx.
  induction langs as [|lang langs IH]; intros B idx HB0 HB H; simpl.
  - by rewrite Z.add_0_r.
  - simpl length in *.
    replace (B + Z.of_nat (S (length langs))) with ((B + 1) + Z.of_nat (length langs)) by lia.
    apply IH; [lia|lia|]. unfold index_lang.
    destruct (stemmer se _ lang false).
    + destruct (String.eqb stem "").
      * eapply counts_within_mono; [|done]. lia.
      * apply bump_counts; [lia|lia|done].
    + eapply counts_within_mono; [|done]. lia.
Qed.

Lemma index_words_nonempty se fullPath words idx :
  buckets_nonempty idx ->
  buckets_nonempty (foldl (index_word ToLower o se fullPath) idx words).
Proof.
  revert idx. induction words as [|w words IH]; intros idx H; simpl; [done|].
  apply IH. by apply index_word_nonempty.
Qed.

Lemma index_words_counts B se fullPath words idx :
  0 <= B ->
  B + Z.of_nat (length words) * Z.of_nat (length (langs_of o se)) < 2 ^ 63 ->
  counts_within B idx ->
  counts_within (B + Z.of_nat (length words) * Z.of_nat (length (langs_of o se)))
    (foldl (index_word ToLower o se fullPath) idx words).
Proof.
  revert B idx. induction words as [|w words IH]; intros B idx HB0 HB H; simpl foldl.
  - simpl. by rewrite Z.add_0_r.
  - simpl length in *.
    set (n := Z.of_nat (length (langs_of o se))) in *.
    replace (B + Z.of_nat (S (length words)) * n)
      with ((B + n) + Z.of_nat (length words) * n) by lia.
    assert (0 <= n) by lia.
    apply IH; [lia|nia|]. apply index_word_counts; [lia|nia|done].
Qed.

Lemma unlink_langs_nonempty se fullPath words langs idx :
  buckets_nonempty idx ->
  buckets_nonempty (foldl (unlink_lang ToLower se fullPath words) idx langs).
Proof.
  revert idx. induction langs as [|lang langs IH]; intros idx H; simpl; [done|].
  apply IH. unfold unlink_lang. clear IH. revert idx H.
  induction words as [|w words IHw]; intros idx H; simpl; [done|].
  apply IHw. unfold unlink_word.
  destruct (stemmer se _ lang false); [|done].
  destruct (String.eqb stem ""); [done|]. by apply unlink_nonempty.
Qed.

Lemma unlink_langs_counts B se fullPath words langs idx :
  counts_within B idx ->
  counts_within B (foldl (unlink_lang ToLower se fullPath words) idx langs).
Proof.
  revert idx. induction langs as [|lang langs IH]; intros idx H; simpl; [done|].
  apply IH. unfold unlink_lang. clear IH. revert idx H.
  induction words as [|w words IHw]; intros idx H; simpl; [done|].
  apply IHw. unfold unlink_word.
  destruct (stemmer se _ lang false); [|done].
  destruct (String.eqb stem ""); [done|]. by apply unlink_counts.
Qed.

Lemma step_languages se x : languages (step se x) = languages se.
Proof.
  destruct x as [doc|docPath]; simpl; [done|].
  unfold Search.DeleteDocument. by destruct (documents se !! _).
Qed.

Lemma step_stemmer se x : stemmer (step se x) = stemmer se.
Proof.
  destruct x as [doc|docPath]; simpl; [done|].
  unfold Search.DeleteDocument. by destruct (documents se !! _).
Qed.

Lemma step_nonempty se x :
  buckets_nonempty (index se) -> buckets_nonempty (index (step se x)).
Proof.
  intros H. destruct x as [doc|docPath]; simpl.
  - by apply index_words_nonempty.
  - unfold Search.DeleteDocument. destruct (documents se !! _); [|done].
    simpl. by apply unlink_langs_nonempty.
Qed.

Lemma step_counts B se x :
  0 <= B -> B + work_of se x < 2 ^ 63 ->
  counts_within B (index se) -> counts_within (B + work_of se x) (index (step se x)).
Proof.
  intros HB0 HB H. destruct x as [doc|docPath]; simpl in *.
  - by apply index_words_counts.
  - rewrite Z.add_0_r. unfold Search.DeleteDocument.
    destruct (documents se !! _); [|done].
    simpl. by apply unlink_langs_counts.
Qed.

Lemma work_of_step se se' x :
  languages se' = languages se -> work_of se' x = work_of se x.
Proof. intros E. destruct x; [|done]. unfold work_of, langs_of. by rewrite E. Qed.

Lemma work_ext se se' ops :
  languages se' = languages se -> work se' ops = work se ops.
Proof.
  intros E. induction ops as [|x ops IH]; simpl; [done|].
  by rewrite IH, (work_of_step se se' x E).
Qed.

Lemma work_nonneg se ops : 0 <= work se ops.
Proof.
  induction ops as [|x ops IH]; simpl; [lia|].
  assert (0 <= work_of se x); [|lia]. destruct x; simpl; lia.
Qed.

Lemma run_nonempty ops se :
  buckets_nonempty (index se) -> buckets_nonempty (index (run ops se)).
Proof.
  revert se. induction ops as [|x ops IH]; intros se H; simpl; [done|].
  apply IH. by apply step_nonempty.
Qed.

Lemma run_counts ops B se :
  0 <= B -> B + work se ops < 2 ^ 63 ->
  counts_within B (index se) -> counts_within (B + work se ops) (index (run ops se)).
Proof.
  revert B se. induction ops as [|x ops IH]; intros B se HB0 HB H; simpl in *.
  - by rewrite Z.add_0_r.
  - pose proof (work_nonneg se ops) as Hw.
    assert (0 <= work_of se x) as Hx by (destruct x; simpl; lia).
    replace (B + (work_of se x + work se ops))
      with ((B + work_of se x) + work (step se x) ops)
      by (rewrite (work_ext se (step se x) ops (step_languages se x)); lia).
    apply IH; [lia| |].
    + rewrite (work_ext se (step se x) ops (step_languages se x)). lia.
    + apply step_counts; [lia|lia|done].
Qed.

Lemma new_engine_nonempty stem langs : buckets_nonempty (index (NewSearchEngine stem langs)).
Proof. intros s b. simpl. by rewrite lookup_empty. Qed.

Lemma new_engine_counts stem langs : counts_within 0 (index (NewSearchEngine stem langs)).
Proof. intros s b p c. simpl. by rewrite lookup_empty. Qed.

(** C9. From a new engine, after any sequence of [IndexDocument] and
    [DeleteDocument] calls, a stem that is a key of the index maps to a bucket
    with at least one document path; and as long as the run has reached
    the stemmer fewer than 2^63 times, which keeps the 64-bit counters
    from wrapping, every count in the bucket is positive. *)
Theorem index_buckets_never_empty stem langs ops s bucket :
  index (run ops (NewSearchEngine stem langs)) !! s = Some bucket ->
  (exists p c, bucket !! p = Some c)
  /\ (work (NewSearchEngine stem langs) ops < 2 ^ 63 ->
      forall p c, bucket !! p = Some c -> 0 < c).
Proof.
  intros Hs. split.
  - pose proof (run_nonempty ops _ (new_engine_nonempty stem langs) _ _ Hs) as Hne.
    destruct (map_choose _ Hne) as (p & c & Hp). eauto.
  - intros Hw p c Hp.
    assert (counts_within (0 + work (NewSearchEngine stem langs) ops)
              (index (run ops (NewSearchEngine stem langs)))) as Hc
      by (apply run_counts; [lia|lia|apply new_engine_counts]).
    specialize (Hc _ _ _ _ Hs Hp). lia.
Qed.

(** *** What [Search] hands back comes from [se.documents] *)


Lemma Search_err_nil se query page pageSize docs total err :
  Search se query page pageSize = Returned docs total err -> err = None.
Proof.
  unfold Search.Search.
  repeat (case_match; try discriminate); by intros [= _ _ <-].
Qed.





(** *** The result list does not depend on the order of map iteration *)

Lemma add_score_comm r e1 e2 :
  add_score (add_score r e1) e2 = add_score (add_score r e2) e1.
Proof.
  destruct e1 as [p1 c1], e2 as [p2 c2]. unfold add_score. simpl.
  destruct (decide (p1 = p2)) as [->|Hne].
  - rewrite !lookup_insert_eq, !insert_insert_eq. simpl. f_equal.
    rewrite !wrap64_add_l. f_equal. lia.
  - rewrite !lookup_insert_ne by done. by apply insert_insert_ne.
Qed.

Lemma foldl_comm_perm {A B} (f : A -> B -> A) (l1 l2 : list B) :
  (forall a x y, f (f a x) y = f (f a y) x) ->
  l1 ≡ₚ l2 -> forall a, foldl f a l1 = foldl f a l2.
Proof.
  intros Hf. induction 1 as [|x l1 l2 _ IH|x y l|l1 l2 l3 _ IH1 _ IH2]; intros a; simpl.
  - done.
  - apply IH.
  - by rewrite Hf.
  - by rewrite IH1.
Qed.

Lemma foldl_bind {A B C} (f : A -> C -> A) (g : B -> list C) (l : list B) a :
  foldl f a (l ≫= g) = foldl (fun a x => foldl f a (g x)) a l.
Proof.
  revert a. induction l as [|x l IH]; intros a; simpl; [done|].
  by rewrite foldl_app, IH.
Qed.

Lemma bind_perm_ext {A B} (f g : A -> list B) (l l' : list A) :
  (forall x, f x ≡ₚ g x) -> l ≡ₚ l' -> l ≫= f ≡ₚ l' ≫= g.
Proof.
  intros Hfg Hl. rewrite Hl. clear l Hl.
  induction l' as [|x l IH]; simpl; [done|]. by rewrite Hfg, IH.
Qed.

(** What one word and language add to [results]: the entries of the bucket
    of the stem, in the order [range] yields them. *)
Definition lang_entries (o : MapOrder) (se : SearchEngine) (word lang : string)
    : list (string * Z) :=
  match stemmer se word lang false with
  | Stemmed stemmed =>
      if String.eqb stemmed "" then []
      else match index se !! stemmed with
           | Some docs => range o docs
           | None => []
           end
  | StemError => []
  end.

Definition query_entries (o : MapOrder) (se : SearchEngine) (query : string)
    : list (string * Z) :=
  Fields query ≫= fun word =>
    langs_of o se ≫= fun lang => lang_entries o se (normalize ToLower word) lang.

Lemma collect_entries o' se query :
  collect Fields ToLower o' se query = foldl add_score ∅ (query_entries o' se query).
Proof.
  unfold collect, query_entries. rewrite foldl_bind.
  generalize (∅ : gmap string Z). induction (Fields query) as [|w ws IH]; intros r; [done|].
  simpl. rewrite <- IH. f_equal. unfold collect_word. rewrite foldl_bind.
  generalize (langs_of o' se). intros langs. revert r.
  induction langs as [|lang langs IHl]; intros r; [done|]. simpl.
  rewrite <- IHl. f_equal. unfold collect_lang, lang_entries.
  destruct (stemmer se _ lang false); [|done].
  destruct (String.eqb stem ""); [done|]. by destruct (index se !! stem).
Qed.

Lemma query_entries_perm o1 o2 se query :
  query_entries o1 se query ≡ₚ query_entries o2 se query.
Proof.
  unfold query_entries. apply bind_perm_ext; [|done]. intros w.
  apply bind_perm_ext.
  - intros lang. unfold lang_entries.
    destruct (stemmer se _ lang false); [|done].
    destruct (String.eqb stem ""); [done|].
    destruct (index se !! stem); [|done]. by rewrite !range_perm.
  - unfold langs_of. by rewrite !range_perm.
Qed.

Lemma collect_order_free o1 o2 se query :
  collect Fields ToLower o1 se query = collect Fields ToLower o2 se query.
Proof.
  rewrite !collect_entries.
  apply foldl_comm_perm; [apply add_score_comm|apply query_entries_perm].
Qed.

Lemma sortedResults_order_free o1 o2 se query :
  sortedResults Fields ToLower o1 se query = sortedResults Fields ToLower o2 se query.
Proof.
  unfold sortedResults. apply sortResults_order_free.
  rewrite (collect_order_free o1 o2). by rewrite !range_perm.
Qed.

Lemma sortedResults_perm se query :
  sortedResults Fields ToLower o se query
  ≡ₚ to_scored <$> map_to_list (collect Fields ToLower o se query).
Proof. unfold sortedResults. by rewrite sortResults_perm, range_perm. Qed.

Lemma sortedResults_paths_NoDup se query :
  NoDup (sPath <$> sortedResults Fields ToLower o se query).
Proof.
  rewrite sortedResults_perm, <- list_fmap_compose.
  apply (NoDup_fst_map_to_list (collect Fields ToLower o se query)).
Qed.

Lemma StronglySorted_lookup {A} (R : relation A) (l : list A) :
  StronglySorted R l ->
  forall i j a b, (i < j)%nat -> l !! i = Some a -> l !! j = Some b -> R a b.
Proof.
  induction 1 as [|x l _ IH Hx]; intros i j a b Hij Hi Hj; [done|].
  destruct j as [|j]; [lia|]. simpl in Hj. destruct i as [|i]; simpl in Hi.
  - injection Hi as <-. rewrite Forall_forall in Hx. apply Hx.
    by eapply list_elem_of_lookup_2.
  - apply (IH i j); [lia|done|done].
Qed.

(** C5. The list [Search] cuts its page from holds exactly the entries of
    the [results] map (a path with its score summed over the matching stems);
    of any two of its entries the earlier has the higher score or, at equal
    score, the smaller path; and the list is the same whatever order the
    runtime iterates the maps in. *)
Theorem search_results_totally_ordered se query :
  let sorted := sortedResults Fields ToLower o se query in
  (forall p s, {| sPath := p; sScore := s |} ∈ sorted
               <-> collect Fields ToLower o se query !! p = Some s)
  /\ (forall i j a b, (i < j)%nat -> sorted !! i = Some a -> sorted !! j = Some b ->
        ranks_strictly_before a b)
  /\ (forall o', sortedResults Fields ToLower o' se query = sorted).
Proof.
  intros sorted. split; [|split].
  - intros p s. subst sorted. rewrite sortedResults_perm, list_elem_of_fmap.
    split.
    + intros ([p' s'] & [= -> ->] & Hin). by apply elem_of_map_to_list in Hin.
    + intros H. exists (p, s). split; [done|]. by apply elem_of_map_to_list.
  - intros i j a b Hij Hi Hj.
    pose proof (StronglySorted_lookup _ _ (sortResults_sorted _) i j a b Hij Hi Hj)
      as [Hlt|[Heq Hle]]; [by left|]. right. split; [done|].
    assert (sPath a <> sPath b) as Hne.
    { intros E. pose proof (sortedResults_paths_NoDup se query) as Hnd.
      assert (i = j); [|lia].
      eapply (NoDup_lookup _ i j (sPath a) Hnd);
        rewrite list_lookup_fmap; fold sorted; [by rewrite Hi|by rewrite Hj, E]. }
    rewrite ltb_negb_leb. apply negb_true_iff.
    destruct (String.leb (sPath b) (sPath a)) eqn:Hba; [|done].
    exfalso. apply Hne. apply (anti_symm String.le); [done|].
    unfold String.le. by rewrite Hba.
  - intros o'. apply sortedResults_order_free.
Qed.

(** *** The page window *)

(** [page < 1] is read as 1 and [pageSize < 1] as 10. *)
Lemma Search_coerces se query page pageSize :
  Search se query page pageSize
  = Search se query (if page <? 1 then 1 else page) (if pageSize <? 1 then 10 else pageSize).
Proof.
  unfold Search.Search.
  replace (if (if page <? 1 then 1 else page) <? 1 then 1 else if page <? 1 then 1 else page)
    with (if page <? 1 then 1 else page)
    by (destruct (Z.ltb_spec page 1); [done|]; destruct (Z.ltb_spec page 1); [lia|done]).
  replace (if (if pageSize <? 1 then 10 else pageSize) <? 1 then 10
           else if pageSize <? 1 then 10 else pageSize)
    with (if pageSize <? 1 then 10 else pageSize)
    by (destruct (Z.ltb_spec pageSize 1); [done|]; destruct (Z.ltb_spec pageSize 1); [lia|done]).
  done.
Qed.

(** Where [(page - 1) * pageSize + pageSize] fits an [int], [Search] returns
    the stored documents of the [pageSize] entries from index
    [(page - 1) * pageSize] on, and the length of the whole list as total. *)
Lemma Search_window se query page pageSize :
  1 <= page -> 1 <= pageSize -> (page - 1) * pageSize + pageSize < 2 ^ 63 ->
  Search se query page pageSize
  = Returned
      (omap (fun r => documents se !! sPath r)
         (take (Z.to_nat pageSize)
            (drop (Z.to_nat ((page - 1) * pageSize)) (sortedResults Fields ToLower o se query))))
      (Z.of_nat (length (sortedResults Fields ToLower o se query))) None.
Proof.
  intros Hp Hs Hfit. unfold Search.Search.
  destruct (Z.ltb_spec page 1); [lia|]. destruct (Z.ltb_spec pageSize 1); [lia|].
  set (sorted := sortedResults Fields ToLower o se query).
  assert (0 <= (page - 1) * pageSize) as Hstart0 by nia.
  rewrite (wrap64_id (page - 1)) by (unfold in_int64; nia).
  rewrite (wrap64_id ((page - 1) * pageSize)) by (unfold in_int64; lia).
  rewrite (wrap64_id ((page - 1) * pageSize + pageSize)) by (unfold in_int64; lia).
  set (start := (page - 1) * pageSize) in *.
  destruct (Z.geb_spec start (Z.of_nat (length sorted))) as [Hge|Hlt].
  - rewrite drop_ge by lia. by rewrite take_nil.
  - destruct (Z.leb_spec 0 start); [|lia]. simpl.
    destruct (Z.gtb_spec (start + pageSize) (Z.of_nat (length sorted))) as [Hbig|Hsmall].
    + destruct (Z.leb_spec start (Z.of_nat (length sorted))); [|lia].
      f_equal. f_equal.
      rewrite !take_ge; [done| |]; rewrite length_drop; lia.
    + destruct (Z.leb_spec start (start + pageSize)); [|lia].
      do 3 f_equal. lia.
Qed.

(** C8 as amended. [IndexDocument] and [Search] never return an error, and
    a stemming failure leaves the index, and the scores of a query, as they
    were for that word and language; [DeleteDocument] returns an error, the
    not-found one, exactly when no document is stored under the path. *)
Theorem search_index_errors se doc docPath query page pageSize :
  (IndexDocument se doc).2 = None
  /\ (forall docs total err,
        Search se query page pageSize = Returned docs total err -> err = None)
  /\ ((DeleteDocument se docPath).2 = None <->
        is_Some (documents se !! getBasePath docPath))
  /\ (documents se !! getBasePath docPath = None ->
        DeleteDocument se docPath = (se, Some (ErrDocumentNotFound docPath)))
  /\ (forall fullPath word lang idx results,
        stemmer se word lang false = StemError ->
        index_lang se fullPath word idx lang = idx
        /\ collect_lang o se word results lang = results)
  /\ (forall fullPath word lang idx,
        stemmer se (normalize ToLower word) lang false = StemError ->
        unlink_word ToLower se fullPath lang idx word = idx).
Proof.
  split; [done|]. split; [apply Search_err_nil|]. split; [|split; [|split]].
  - unfold Search.DeleteDocument.
    destruct (documents se !! getBasePath docPath) eqn:E; simpl.
    + split; eauto.
    + split; [done|]. by intros [? ?].
  - unfold Search.DeleteDocument. by intros ->.
  - intros fullPath word lang idx results E.
    unfold index_lang, collect_lang. by rewrite E.
  - intros fullPath word lang idx E. unfold unlink_word. by rewrite E.
Qed.

End Runs.

(** *** The theorems on a small index *)

Definition doc_a : Document := mkDoc "a" "Cats" "cats and dogs".
Definition doc_b : Document := mkDoc "b" "Dog" "one cat".

Lemma index_buckets_never_empty_witness :
  (exists p c, ({[ "data/b" := 2 ]} : gmap string Z) !! p = Some c)
  /\ (work ascii_Fields canonical_order (NewSearchEngine toy_stem ["english"; "russian"])
         [OpIndex doc_a; OpIndex doc_b; OpDelete "a"] < 2 ^ 63 ->
      forall p c, ({[ "data/b" := 2 ]} : gmap string Z) !! p = Some c -> 0 < c).
Proof.
  apply (index_buckets_never_empty ascii_Fields ToLowerASCII canonical_order toy_stem
           ["english"; "russian"] [OpIndex doc_a; OpIndex doc_b; OpDelete "a"] "cat").
  vm_compute. reflexivity.
Defined.


(** *** Twenty-five matching documents, ten to a page *)

Definition numbered (n : nat) : Document :=
  mkDoc ("d" +:+ NilZero.string_of_uint (Nat.to_uint n)) "Note" "about the wiki".

Definition engine25 : SearchEngine :=
  index_all canonical_order (numbered <$> seq 1 25) engine0.

Definition count_docs (r : search_outcome) : option (nat * Z) :=
  match r with
  | Returned docs total None => Some (length docs, total)
  | _ => None
  end.

Example pages_of_twenty_five :
  let search := Search ascii_Fields ToLowerASCII canonical_order engine25 "wiki" in
  count_docs (search 1 10) = Some (10%nat, 25)
  /\ count_docs (search 3 10) = Some (5%nat, 25)
  /\ search 4 10 = Returned [] 25 None
  /\ search 1000 10 = Returned [] 25 None
  /\ search 0 10 = search 1 10
  /\ search 3 0 = search 3 10
  /\ search (-7) (-7) = search 1 10.
Proof. vm_compute. repeat split; reflexivity. Qed.

(** C6 on the code: a page far out of range whose offset
    [(page - 1) * pageSize] wraps around to 0 gets the first page, not an
    empty one.  Here one document matches, [page] is 2^62 + 1 and
    [pageSize] is 4, so the offset is 2^64. *)
Lemma search_page_offset_wraps :
  let se := index_all canonical_order [mkDoc "a" "Wiki" "home"] engine0 in
  Search ascii_Fields ToLowerASCII canonical_order se "wiki" 4611686018427387905 4
  = Returned [mkDoc "a" "Wiki" "home"] 1 None.
Proof. vm_compute. reflexivity. Qed.

(** With [pageSize = 2] the same page gives the offset -2^63, and the
    slice expression panics. *)
Example search_page_offset_negative :
  let se := index_all canonical_order [mkDoc "a" "Wiki" "home"] engine0 in
  Search ascii_Fields ToLowerASCII canonical_order se "wiki" 4611686018427387905 2
  = Panicked.
Proof. vm_compute. reflexivity. Qed.

(** C8 as the specification has it fails: deleting a path that was never
    indexed returns the not-found error. *)
Lemma delete_unknown_path_returns_error :
  (DeleteDocument ascii_Fields ToLowerASCII canonical_order engine0 "ghost").2
  = Some (ErrDocumentNotFound "ghost").
Proof. reflexivity. Qed.

End SearchFacts.

(** ** The tree store and the history *)

Module StorageFacts.
Import GoInt GoIntFacts GoStrings Filepath Storage History.

(** *** Directories *)

Lemma child_name_app (k : list string) name : child_name k (k ++ [name]) = Some name.
Proof. induction k as [|c k IH]; simpl; [done|]. by rewrite String.eqb_refl. Qed.

Lemma child_name_Some (k k' : list string) name :
  child_name k k' = Some name -> k' = k ++ [name].
Proof.
  revert k'. induction k as [|c k IH]; intros k' H.
  - destruct k' as [|n [|??]]; simpl in H; try done. by injection H as ->.
  - destruct k' as [|c' k']; simpl in H; [done|].
    destruct (String.eqb_spec c c') as [->|]; [|done]. simpl. f_equal. by apply IH.
Qed.

(** The entries of a directory are the paths one name below it. *)
Lemma elem_of_dir_entries f k name d :
  {| Name := name; IsDir := d |} ∈ dir_entries f k
  <-> exists n, f !! (k ++ [name]) = Some n /\ is_dir n = d.
Proof.
  unfold dir_entries. rewrite merge_sort_Permutation, list_elem_of_omap. split.
  - intros ([k' n] & Hin & H). apply elem_of_map_to_list in Hin.
    destruct (child_name k k') as [name'|] eqn:Hc; [|done].
    injection H as -> <-. apply child_name_Some in Hc as ->. eauto.
  - intros (n & Hn & <-). exists (k ++ [name], n). split.
    + by apply elem_of_map_to_list.
    + by rewrite child_name_app.
Qed.

Lemma lookup_path_Some f k n : f !! k = Some n -> lookup_path f k = Ok n.
Proof. unfold lookup_path. by intros ->. Qed.

(** *** Removing a tree *)

Lemma RemoveAll_gone w p (k k' : list string) :
  resolve p = Some k -> k <> [] -> k `prefix_of` k' ->
  files (os_RemoveAll w p).2 !! k' = None.
Proof.
  intros Hr Hk Hpre. unfold os_RemoveAll. rewrite Hr.
  destruct k as [|c k]; [done|]. simpl.
  apply map_lookup_filter_None. right. intros n _. simpl.
  unfold is_prefix. by rewrite bool_decide_eq_true_2.
Qed.

Lemma Mkdir_ok w p w1 :
  os_Mkdir w p = (None, w1) ->
  exists k, resolve p = Some k /\ k <> [] /\ w1 = set_files w (<[k := FDir]> (files w)).
Proof.
  unfold os_Mkdir. destruct (resolve p) as [k|]; [|done].
  destruct k as [|c k]; [done|].
  destruct (files w !! (c :: k)); [done|].
  destruct (parent_ready _ _); [done|]. intros [= <-]. by exists (c :: k).
Qed.

(** *** [generateID]: the first free candidate *)

Section Candidates.

Variable Unidecode : string -> string.
Variable gs : GitStorage.

(** The IDs the loop tries, in turn: the slug, then the slug with [(1)],
    [(2)] and so on. *)
Definition candidate (baseID : string) (n : nat) : string :=
  match n with
  | O => baseID
  | S _ => numbered_id baseID (Z.of_nat n)
  end.

(** The test that ends the loop: the ID is not [root] and nothing exists
    at its path below the parent. *)
Definition free (w : World) (parentPath id : string) : bool :=
  negb (String.eqb id "root") && IsNotExist (os_Stat w (Join [docsDir gs; parentPath; id])).

Lemma generateID_loop_S fuel w parentPath baseID id counter :
  generateID_loop gs (S fuel) w parentPath baseID id counter
  = if free w parentPath id then Some id
    else generateID_loop gs fuel w parentPath baseID (numbered_id baseID counter)
           (wrap64 (counter + 1)).
Proof. reflexivity. Qed.

Lemma generateID_loop_first_free w parentPath baseID n :
  Z.of_nat n < 2 ^ 63 - 1 ->
  free w parentPath (candidate baseID n) = true ->
  forall fuel j,
    (j <= n)%nat -> (n - j < fuel)%nat ->
    (forall i, (j <= i < n)%nat -> free w parentPath (candidate baseID i) = false) ->
    generateID_loop gs fuel w parentPath baseID (candidate baseID j) (Z.of_nat j + 1)
    = Some (candidate baseID n).
Proof.
  intros Hn Hfree. induction fuel as [|fuel IH]; intros j Hj Hfuel Htaken; [lia|].
  rewrite generateID_loop_S.
  destruct (decide (j = n)) as [->|Hne].
  - by rewrite Hfree.
  - rewrite (Htaken j) by lia.
    rewrite wrap64_id by (unfold in_int64; lia).
    replace (numbered_id baseID (Z.of_nat j + 1)) with (candidate baseID (S j))
      by (simpl candidate; do 2 f_equal; lia).
    replace (Z.of_nat j + 1 + 1) with (Z.of_nat (S j) + 1) by lia.
    apply IH; [lia|lia|]. intros i Hi. apply Htaken. lia.
Qed.

(** A: [generateID] returns the first candidate that is free, given one
    round of the loop more than there are candidates before it. *)
Theorem generateID_first_free w parentPath title n fuel :
  Z.of_nat n < 2 ^ 63 - 1 ->
  (n < fuel)%nat ->
  (forall i, (i < n)%nat -> free w parentPath (candidate (slug Unidecode title) i) = false) ->
  free w parentPath (candidate (slug Unidecode title) n) = true ->
  generateID Unidecode gs fuel w parentPath title = Some (candidate (slug Unidecode title) n).
Proof.
  intros Hn Hfuel Htaken Hfree. unfold generateID.
  apply (generateID_loop_first_free w parentPath _ n Hn Hfree fuel 0%nat); [lia|lia|].
  intros i Hi. apply Htaken. lia.
Qed.

(** What [generateID] returns is free, whatever the fuel. *)
Lemma generateID_loop_free w parentPath baseID fuel : forall id counter r,
  generateID_loop gs fuel w parentPath baseID id counter = Some r ->
  free w parentPath r = true.
Proof.
  induction fuel as [|fuel IH]; intros id counter r; [done|].
  rewrite generateID_loop_S. destruct (free w parentPath id) eqn:E.
  - by intros [= <-].
  - apply IH.
Qed.

End Candidates.

(** *** The slug and the numbered IDs as names *)

Import PathFacts.

Lemma lower_word_byte c : is_word_byte c = true -> name_byte (lower_byte c) = true.
Proof.
  destruct c as [[] [] [] [] [] [] [] []]; intros H; vm_compute in H |- *; congruence.
Qed.

Lemma slug_bytes Unidecode title : all_bytes name_byte (slug Unidecode title) = true.
Proof.
  unfold slug, ToLowerASCII.
  apply (all_bytes_map is_word_byte); [apply lower_word_byte|apply all_bytes_filter].
Qed.

Lemma mem_ascii_append c (a b : string) :
  mem_ascii c (a +:+ b) = mem_ascii c a || mem_ascii c b.
Proof.
  induction a as [|x a IH]; [done|]. rewrite append_cons. simpl.
  by rewrite IH, orb_assoc.
Qed.

(** A slug that is not empty is a plain name, and so is it with a suffix
    that has no slash. *)
Lemma slug_plain Unidecode title (suffix : string) :
  slug Unidecode title <> "" -> has_slash suffix = false ->
  plain (slug Unidecode title +:+ suffix) = true.
Proof.
  intros Hs Hsuf.
  destruct (all_bytes_name _ (slug_bytes Unidecode title) Hs) as [Hw Hn].
  unfold plain. rewrite has_slash_append, Hn, Hsuf. simpl. rewrite andb_true_r.
  by apply starts_well_simple, starts_well_append.
Qed.

Lemma numbered_not_root (baseID suffix : string) :
  String.eqb (baseID +:+ String "(" suffix) "root" = false.
Proof.
  apply String.eqb_neq. intros E.
  assert (mem_ascii "(" (baseID +:+ String "(" suffix) = true) as H
    by (rewrite mem_ascii_append; simpl; by rewrite orb_true_r).
  by rewrite E in H.
Qed.

(** *** What a creation changes, and what it leaves *)

Lemma file_on_way_agree f1 f2 rest : forall cur,
  (forall key, (length key < length cur + length rest)%nat -> f1 !! key = f2 !! key) ->
  file_on_way f1 cur rest = file_on_way f2 cur rest.
Proof.
  induction rest as [|c rest IH]; intros cur H; simpl; [done|].
  rewrite <- (H cur) by (simpl; lia).
  destruct (f1 !! cur) as [[]|]; try done; apply IH; intros key Hk; apply H;
    rewrite length_app in Hk; simpl in *; lia.
Qed.

Lemma WriteFile_ok w path data w2 :
  os_WriteFile w path data = (None, w2) ->
  exists f, resolve path = Some f /\ w2 = set_files w (<[f := FFile data]> (files w)).
Proof.
  unfold os_WriteFile. destruct (write_fault w path); [done|].
  destruct (resolve path) as [k|]; [|done]. destruct k as [|c k]; [done|].
  destruct (files w !! (c :: k)) as [[]|]; try done;
    destruct (parent_ready _ _); try done; intros [= <-]; by exists (c :: k).
Qed.

Lemma commitChanges_files gs w message : files (commitChanges gs w message).2 = files w.
Proof.
  unfold commitChanges. destruct (git_fault w); [done|]. by destruct (IsClean gs w).
Qed.

Lemma commitChanges_ok gs w message w' :
  commitChanges gs w message = (None, w') -> files w' = files w.
Proof. intros H. by rewrite <- (commitChanges_files gs w message), H. Qed.

Section Creating.

Variable Unidecode : string -> string.
Variable gs : GitStorage.
Hypothesis docsDir_nonempty : docsDir gs <> "".

Local Abbreviation CreateDocument := (CreateDocument Unidecode gs).
Local Abbreviation generateID := (generateID Unidecode gs).

(** The directory of the new node, as [CreateDocument] names it. *)
Definition node_dir (parentPath id : string) : string :=
  if String.eqb parentPath "" then Join [docsDir gs; id]
  else Join [docsDir gs; FromSlash parentPath; id].

Lemma key_of_candidate parentPath id :
  plain id = true ->
  resolve (Join [docsDir gs; parentPath; id])
  = (fun base => base ++ [id]) <$> resolve (Join [docsDir gs; parentPath]).
Proof. by apply resolve_Join3. Qed.

Lemma key_of_node_dir parentPath id :
  plain id = true ->
  resolve (node_dir parentPath id)
  = (fun base => base ++ [id]) <$> resolve (Join [docsDir gs; parentPath]).
Proof.
  intros Hid. unfold node_dir. destruct (String.eqb_spec parentPath "") as [->|_].
  - by rewrite resolve_Join2, resolve_Join2_empty.
  - by apply resolve_Join3.
Qed.

Lemma node_dir_clean parentPath id : exists q, node_dir parentPath id = Clean q.
Proof.
  unfold node_dir. destruct (String.eqb parentPath ""); rewrite Join_cons by done; eauto.
Qed.

Lemma free_taken w parentPath id base n :
  plain id = true ->
  resolve (Join [docsDir gs; parentPath]) = Some base ->
  files w !! (base ++ [id]) = Some n ->
  free gs w parentPath id = false.
Proof.
  intros Hid Hb Hn. unfold free, os_Stat.
  rewrite key_of_candidate, Hb by done. simpl.
  rewrite (lookup_path_Some _ _ _ Hn). apply andb_false_r.
Qed.

(** A new directory [id] and a file in it leave another name free. *)
Lemma free_frame w w' parentPath id name data id' base :
  plain id' = true -> id' <> id ->
  resolve (Join [docsDir gs; parentPath]) = Some base ->
  files w' = <[base ++ [id; name] := FFile data]> (<[base ++ [id] := FDir]> (files w)) ->
  free gs w parentPath id' = true -> free gs w' parentPath id' = true.
Proof.
  intros Hid Hne Hb Hw. unfold free, os_Stat.
  rewrite key_of_candidate, Hb by done. simpl. unfold lookup_path. rewrite Hw.
  rewrite lookup_insert_ne
    by (intros E; apply (f_equal length) in E; rewrite !length_app in E; simpl in E; lia).
  rewrite lookup_insert_ne by (intros E; apply app_inv_head in E; congruence).
  rewrite (file_on_way_agree
             (<[base ++ [id; name] := FFile data]> (<[base ++ [id] := FDir]> (files w)))
             (files w) (base ++ [id']) []); [done|].
  intros key Hk. rewrite length_app in Hk. simpl in Hk.
  rewrite !lookup_insert_ne; [done| |];
    intros E; apply (f_equal length) in E; rewrite !length_app in E; simpl in E; lia.
Qed.

(** The ID of the document returned is the one [generateID] gave. *)
Lemma CreateDocument_ID fuel w parentPath title content id doc w' :
  generateID fuel w parentPath title = Some id ->
  CreateDocument fuel w parentPath title content = Some (Ok doc, w') ->
  ID doc = id.
Proof.
  intros Hid. unfold Storage.CreateDocument. rewrite Hid.
  destruct (os_Mkdir w _) as [[e|] w1]; [done|].
  destruct (os_WriteFile w1 _ content) as [[e|] w2]; [done|].
  destruct (commitChanges gs w2 _) as [[e|] w3]; [done|].
  destruct (getChildren gs w3 parentPath); [|done]. by intros [= <- _].
Qed.

(** A creation that succeeds adds the directory of the node and the
    content file in it, and nothing else. *)
Lemma CreateDocument_ok fuel w parentPath title content id doc w' :
  generateID fuel w parentPath title = Some id ->
  plain id = true -> has_slash title = false ->
  CreateDocument fuel w parentPath title content = Some (Ok doc, w') ->
  exists base,
    resolve (Join [docsDir gs; parentPath]) = Some base
    /\ files w !! (base ++ [id]) = None
    /\ files w'
       = <[base ++ [id; title +:+ ".md"] := FFile content]>
           (<[base ++ [id] := FDir]> (files w)).
Proof.
  intros Hid Hplain Htitle. unfold Storage.CreateDocument. rewrite Hid.
  fold (node_dir parentPath id).
  destruct (os_Mkdir w (node_dir parentPath id)) as [[e|] w1] eqn:Hmk; [done|].
  destruct (os_WriteFile w1 _ content) as [[e|] w2] eqn:Hwr; [done|].
  destruct (commitChanges gs w2 _) as [[e|] w3] eqn:Hc; [done|].
  destruct (getChildren gs w3 parentPath); [|done]. intros [= _ <-].
  destruct (Mkdir_ok _ _ _ Hmk) as (k & Hk & _ & ->).
  rewrite key_of_node_dir in Hk by done.
  destruct (resolve (Join [docsDir gs; parentPath])) as [base|] eqn:Hb; [|done].
  injection Hk as <-. exists base. split; [done|].
  destruct (WriteFile_ok _ _ _ _ Hwr) as (f & Hf & ->).
  rewrite (commitChanges_ok _ _ _ _ Hc). simpl. split.
  - unfold os_Mkdir in Hmk. destruct (resolve (node_dir parentPath id)) as [k|] eqn:Hr; [|done].
    rewrite key_of_node_dir, Hb in Hr by done. injection Hr as <-.
    destruct (base ++ [id]) eqn:E; [by destruct base|]. rewrite <- E in *.
    by destruct (files w !! (base ++ [id])).
  - destruct (node_dir_clean parentPath id) as (q & Hq).
    pose proof (md_name_plain title Htitle) as Hmd.
    rewrite Hq, resolve_Join_Clean, <- Hq, key_of_node_dir, Hb in Hf by done.
    simpl in Hf. injection Hf as <-. by rewrite <- app_assoc.
Qed.

Lemma append_neq (a b : string) : b <> "" -> a +:+ b <> a.
Proof.
  intros Hb E. apply (f_equal String.length) in E. rewrite length_append in E.
  destruct b; [done|]. simpl in E. lia.
Qed.

Lemma free_candidate w parentPath id :
  String.eqb id "root" = false ->
  IsNotExist (os_Stat w (Join [docsDir gs; parentPath; id])) = true ->
  free gs w parentPath id = true.
Proof. unfold free. by intros -> ->. Qed.

(** C2 as amended.  Three documents are created one after another below
    the same parent, with titles of one and the same slug [s], which is
    neither empty nor [root]; the first two titles have no slash.  If the
    parent has no entry [s], [s(1)] or [s(2)] before, and the three calls
    return documents, then, with room for three rounds of the loop, their
    IDs are [s], [s(1)] and [s(2)]. *)
Theorem create_three_same_slug fuel w0 parentPath t1 t2 t3 c1 c2 c3 d1 d2 d3 w1 w2 w3 :
  let s := slug Unidecode t1 in
  (3 <= fuel)%nat ->
  slug Unidecode t2 = s -> slug Unidecode t3 = s ->
  s <> "" -> s <> "root" ->
  has_slash t1 = false -> has_slash t2 = false ->
  IsNotExist (os_Stat w0 (Join [docsDir gs; parentPath; s])) = true ->
  IsNotExist (os_Stat w0 (Join [docsDir gs; parentPath; s +:+ "(1)"])) = true ->
  IsNotExist (os_Stat w0 (Join [docsDir gs; parentPath; s +:+ "(2)"])) = true ->
  CreateDocument fuel w0 parentPath t1 c1 = Some (Ok d1, w1) ->
  CreateDocument fuel w1 parentPath t2 c2 = Some (Ok d2, w2) ->
  CreateDocument fuel w2 parentPath t3 c3 = Some (Ok d3, w3) ->
  ID d1 = s /\ ID d2 = s +:+ "(1)" /\ ID d3 = s +:+ "(2)".
Proof.
  intros s Hfuel Ht2 Ht3 Hne Hroot Hs1 Hs2 Hn0 Hn1 Hn2 Hc1 Hc2 Hc3.
  assert (plain s = true) as Hp0
    by (rewrite <- (append_nil_r s); by apply slug_plain).
  assert (plain (s +:+ "(1)") = true) as Hp1 by (by apply slug_plain).
  assert (plain (s +:+ "(2)") = true) as Hp2 by (by apply slug_plain).
  assert (free gs w0 parentPath s = true) as Hf0
    by (apply free_candidate; [by apply String.eqb_neq|done]).
  assert (free gs w0 parentPath (s +:+ "(1)") = true) as Hf1
    by (apply free_candidate; [apply (numbered_not_root s "1)")|done]).
  assert (free gs w0 parentPath (s +:+ "(2)") = true) as Hf2
    by (apply free_candidate; [apply (numbered_not_root s "2)")|done]).
  (* the first document *)
  assert (generateID fuel w0 parentPath t1 = Some s) as Hg1.
  { apply (generateID_first_free Unidecode gs w0 parentPath t1 0%nat fuel);
      [lia|lia|intros; lia|done]. }
  destruct (CreateDocument_ok _ _ _ _ _ _ _ _ Hg1 Hp0 Hs1 Hc1) as (base & Hb & _ & Hw1).
  assert (files w1 !! (base ++ [s]) = Some FDir) as Hk1.
  { rewrite Hw1, lookup_insert_ne, lookup_insert_eq; [done|].
    intros E. apply (f_equal length) in E. rewrite !length_app in E. simpl in E. lia. }
  (* the second *)
  assert (generateID fuel w1 parentPath t2 = Some (s +:+ "(1)")) as Hg2.
  { replace (s +:+ "(1)") with (candidate (slug Unidecode t2) 1)
      by (rewrite Ht2; reflexivity).
    apply (generateID_first_free Unidecode gs w1 parentPath t2 1%nat fuel); [lia|lia| |].
    - intros i Hi. assert (i = 0%nat) as -> by lia. rewrite Ht2. simpl.
      by apply (free_taken w1 parentPath s base FDir).
    - rewrite Ht2. change (candidate s 1) with (s +:+ "(1)").
      apply (free_frame w0 w1 parentPath s (t1 +:+ ".md") c1 _ base); try done.
      by apply append_neq. }
  destruct (CreateDocument_ok _ _ _ _ _ _ _ _ Hg2 Hp1 Hs2 Hc2) as (base' & Hb' & _ & Hw2).
  assert (base' = base) as -> by congruence.
  assert (files w2 !! (base ++ [s +:+ "(1)"]) = Some FDir) as Hk2.
  { rewrite Hw2, lookup_insert_ne, lookup_insert_eq; [done|].
    intros E. apply (f_equal length) in E. rewrite !length_app in E. simpl in E. lia. }
  assert (files w2 !! (base ++ [s]) = Some FDir) as Hk1'.
  { rewrite Hw2, !lookup_insert_ne; [done| |].
    - intros E. apply app_inv_head in E. injection E as E. by apply append_neq in E.
    - intros E. apply (f_equal length) in E. rewrite !length_app in E. simpl in E. lia. }
  (* the third *)
  assert (generateID fuel w2 parentPath t3 = Some (s +:+ "(2)")) as Hg3.
  { replace (s +:+ "(2)") with (candidate (slug Unidecode t3) 2)
      by (rewrite Ht3; reflexivity).
    apply (generateID_first_free Unidecode gs w2 parentPath t3 2%nat fuel); [lia|lia| |].
    - intros i Hi. rewrite Ht3. destruct i as [|[|i]]; [| |lia].
      + by apply (free_taken w2 parentPath s base FDir).
      + by apply (free_taken w2 parentPath (s +:+ "(1)") base FDir).
    - rewrite Ht3. change (candidate s 2) with (s +:+ "(2)").
      apply (free_frame w1 w2 parentPath (s +:+ "(1)") (t2 +:+ ".md") c2 _ base); try done.
      + intros E. apply String.app_inj in E. done.
      + apply (free_frame w0 w1 parentPath s (t1 +:+ ".md") c1 _ base); try done.
        by apply append_neq. }
  split; [|split].
  - by apply (CreateDocument_ID _ _ _ _ _ _ _ _ Hg1 Hc1).
  - by apply (CreateDocument_ID _ _ _ _ _ _ _ _ Hg2 Hc2).
  - by apply (CreateDocument_ID _ _ _ _ _ _ _ _ Hg3 Hc3).
Qed.

End Creating.

(** *** A store to run the code on

    The store of [main]: [NewGitStorage("data")] on an empty working
    directory, an empty repository, no faults. *)

Definition gs0 : GitStorage := {| baseDir := "data"; docsDir := Join ["data"; "docs"] |}.

Definition w0 : World :=
  {| files := {[ [] := FDir; ["data"] := FDir; ["data"; "docs"] := FDir ]};
     commits := []; now := 0; write_fault := fun _ => false; git_fault := false |}.

(** [Unidecode] leaves ASCII text as it is; the titles below are ASCII. *)
Definition ascii_only (s : string) : string := s.

Definition no_stats (from to : gmap (list string) string) : list (Z * Z) := [].

(** The world after a call, [d] when the call ran out of fuel. *)
Definition after {A} (r : option (result A * World)) (d : World) : World :=
  match r with
  | Some (_, w) => w
  | None => d
  end.

Definition answer {A} (r : option (result A * World)) : option (result A) :=
  match r with
  | Some (a, _) => Some a
  | None => None
  end.

Definition ok_value {A B} (f : A -> B) (r : option (result A)) : option (option B) :=
  match r with
  | Some (Ok a) => Some (Some (f a))
  | Some (Err _) => Some None
  | None => None
  end.

(** *** C1: created, edited twice, renamed, edited once more *)

Definition h1 : World := after (CreateDocument ascii_only gs0 5 w0 "" "Doc" "v0") w0.
Definition h2 : World := after (UpdateDocument ascii_only gs0 5 h1 "doc" "Doc" "v1" true) h1.
Definition h3 : World := after (UpdateDocument ascii_only gs0 5 h2 "doc" "Doc" "v2" true) h2.
Definition h4 : World := after (UpdateDocument ascii_only gs0 5 h3 "doc" "Doc2" "v2" true) h3.
Definition h5 : World := after (UpdateDocument ascii_only gs0 5 h4 "doc2" "Doc2" "v3" true) h4.

Example history_scenario_runs :
  ok_value ID (answer (CreateDocument ascii_only gs0 5 w0 "" "Doc" "v0")) = Some (Some "doc")
  /\ ok_value Path (answer (UpdateDocument ascii_only gs0 5 h3 "doc" "Doc2" "v2" true))
     = Some (Some "doc2")
  /\ ok_value Content (answer (UpdateDocument ascii_only gs0 5 h4 "doc2" "Doc2" "v3" true))
     = Some (Some "v3")
  /\ (cMessage <$> commits h5)
     = ["Update document: doc2"; "Update document: doc2"; "Update document: doc";
        "Update document: doc"; "Create document: doc"].
Proof. vm_compute. repeat split; reflexivity. Qed.

Definition hashes (r : option (result (list CommitHistory))) : option (list nat) :=
  match r with
  | Some (Ok history) => Some (CommitHash <$> history)
  | _ => None
  end.

(** C1 on the code.  The document is created as [doc] (commit 0, the
    root), edited twice (commits 1 and 2), renamed to [doc2] by a change of
    title (commit 3) and edited once more (commit 4).  The history of
    [doc2] has three entries, the commits 3, 2 and 1, where the closure
    [nested] has the loop variable of its own round, and the single commit
    3 where it shares the variable: the commit of the last edit is in
    neither, because the first path the filter is asked about is compared
    without the [baseDir] in front. *)
Lemma history_after_rename_misses_last_edit (shared_loopvar : bool) :
  hashes (GetDocumentHistory gs0 no_stats shared_loopvar 10 h5 "doc2")
  = Some (if shared_loopvar then [3%nat] else [3%nat; 2%nat; 1%nat]).
Proof. destruct shared_loopvar; vm_compute; reflexivity. Qed.

(** The slip itself: asked first about the very file of the document, the
    filter answers no, and yes from the second time on. *)
Example path_filter_first_call :
  PathFilter gs0 h5 "doc2" "" "docs/doc2/Doc2.md" = (false, "data/docs/doc2/Doc2.md")
  /\ PathFilter gs0 h5 "doc2" "data/docs/doc2/Doc2.md" "docs/doc2/Doc2.md"
     = (true, "data/docs/doc2/Doc2.md").
Proof. vm_compute. split; reflexivity. Qed.

(** The same with a move.  [parent] is created first (commit 0), then
    [doc] (1), edited twice (2, 3), moved below [parent] (4) and edited (5):
    the history has the move, the two edits and the creation, not the last
    edit.  Moved from [zeta] to below [alpha], the insertion comes before
    the deletion in the diff, [nested] is never set, and the history of the
    old path is not followed at all. *)
Definition m1 : World := after (CreateDocument ascii_only gs0 5 w0 "" "Parent" "p") w0.
Definition m2 : World := after (CreateDocument ascii_only gs0 5 m1 "" "Doc" "v0") m1.
Definition m3 : World := after (UpdateDocument ascii_only gs0 5 m2 "doc" "Doc" "v1" true) m2.
Definition m4 : World := after (UpdateDocument ascii_only gs0 5 m3 "doc" "Doc" "v2" true) m3.
Definition m5 : World := (MoveDocument gs0 m4 "doc" "parent").2.
Definition m6 : World :=
  after (UpdateDocument ascii_only gs0 5 m5 "parent/doc" "Doc" "v3" true) m5.

Definition n1 : World := after (CreateDocument ascii_only gs0 5 w0 "" "Alpha" "p") w0.
Definition n2 : World := after (CreateDocument ascii_only gs0 5 n1 "" "Zeta" "v0") n1.
Definition n3 : World := after (UpdateDocument ascii_only gs0 5 n2 "zeta" "Zeta" "v1" true) n2.
Definition n4 : World := after (UpdateDocument ascii_only gs0 5 n3 "zeta" "Zeta" "v2" true) n3.
Definition n5 : World := (MoveDocument gs0 n4 "zeta" "alpha").2.
Definition n6 : World :=
  after (UpdateDocument ascii_only gs0 5 n5 "alpha/zeta" "Zeta" "v3" true) n5.

Example history_after_move :
  length (commits m6) = 6%nat
  /\ hashes (GetDocumentHistory gs0 no_stats false 10 m6 "parent/doc")
     = Some [4%nat; 3%nat; 2%nat; 1%nat]
  /\ length (commits n6) = 6%nat
  /\ hashes (GetDocumentHistory gs0 no_stats false 10 n6 "alpha/zeta") = Some [4%nat].
Proof. vm_compute. repeat split; reflexivity. Qed.

(** *** C3: a title that collides with a sibling *)

Definition u1 : World := after (CreateDocument ascii_only gs0 5 w0 "" "A" "a") w0.
Definition u2 : World := after (CreateDocument ascii_only gs0 5 u1 "" "B" "b") u1.

Definition paths_of (w : World) : list (list string) :=
  (merge_sort path_le (map_to_list (files w))).*1.

(** C3 on the code.  [a] and [b] are siblings at the root; [a] gets the
    title of [b].  [generateID] is asked about the children of [a], not
    about its siblings, and answers [b]; the rename of [data/docs/a] onto
    the existing [data/docs/b] fails, and [UpdateDocument] returns that
    error, with the content file already renamed, instead of a document
    at [b(1)]. *)
Lemma update_title_collides_with_sibling :
  generateID ascii_only gs0 5 u2 "a" "B" = Some "b"
  /\ generateID ascii_only gs0 5 u2 "" "B" = Some "b(1)"
  /\ answer (UpdateDocument ascii_only gs0 5 u2 "a" "B" "text" true)
     = Some (Err (OsError EEXIST))
  /\ paths_of (after (UpdateDocument ascii_only gs0 5 u2 "a" "B" "text" true) u2)
     = [ []; ["data"]; ["data"; "docs"]; ["data"; "docs"; "a"];
         ["data"; "docs"; "a"; "B.md"]; ["data"; "docs"; "b"];
         ["data"; "docs"; "b"; "B.md"] ].
Proof. vm_compute. repeat split; reflexivity. Qed.

(** The other face of it: a child of the node that has the new slug makes
    the node [b(1)] although no sibling is called [b]. *)
Example update_title_collides_with_child :
  let w := after (CreateDocument ascii_only gs0 5 u1 "a" "B" "b") u1 in
  ok_value Path (answer (UpdateDocument ascii_only gs0 5 w "a" "B" "text" true))
  = Some (Some "b(1)").
Proof. vm_compute. reflexivity. Qed.

(** *** C2: the slug [root] *)

(** C2 as the specification has it fails: the first document titled
    [Root] gets the ID [root(1)], the second [root(2)], the third [root(3)]. *)
Lemma create_root_titles :
  let r1 := CreateDocument ascii_only gs0 5 w0 "" "Root" "x" in
  let r2 := CreateDocument ascii_only gs0 5 (after r1 w0) "" "Root" "y" in
  let r3 := CreateDocument ascii_only gs0 5 (after r2 w0) "" "Root" "z" in
  slug ascii_only "Root" = "root"
  /\ ok_value ID (answer r1) = Some (Some "root(1)")
  /\ ok_value ID (answer r2) = Some (Some "root(2)")
  /\ ok_value ID (answer r3) = Some (Some "root(3)").
Proof. vm_compute. repeat split; reflexivity. Qed.

Example slug_examples :
  slug ascii_only "Hello World!" = "hello_world"
  /\ slug ascii_only "Tab	separated" = "tabseparated"
  /\ slug ascii_only "snake_case 2" = "snake_case_2"
  /\ slug ascii_only "!!!" = "".
Proof. vm_compute. repeat split; reflexivity. Qed.

Example create_same_title_three_times :
  let r1 := CreateDocument ascii_only gs0 5 w0 "" "Hello World!" "x" in
  let r2 := CreateDocument ascii_only gs0 5 (after r1 w0) "" "Hello World!" "y" in
  let r3 := CreateDocument ascii_only gs0 5 (after r2 w0) "" "hello world" "z" in
  ok_value ID (answer r1) = Some (Some "hello_world")
  /\ ok_value ID (answer r2) = Some (Some "hello_world(1)")
  /\ ok_value ID (answer r3) = Some (Some "hello_world(2)").
Proof. vm_compute. repeat split; reflexivity. Qed.

Example create_empty_slug :
  ok_value ID (answer (CreateDocument ascii_only gs0 5 w0 "" "!!!" "x")) = Some (Some "(1)").
Proof. vm_compute. reflexivity. Qed.

(** The amended C2 on the store of [main]. *)
Definition created (r : option (result Document * World)) : Document :=
  match r with
  | Some (Ok doc, _) => doc
  | _ => emptyDocument
  end.

Definition hello1 := CreateDocument ascii_only gs0 5 w0 "" "Hello World!" "x".
Definition hello2 := CreateDocument ascii_only gs0 5 (after hello1 w0) "" "Hello World!" "y".
Definition hello3 := CreateDocument ascii_only gs0 5 (after hello2 w0) "" "hello world" "z".

Lemma create_three_same_slug_witness :
  ID (created hello1) = "hello_world"
  /\ ID (created hello2) = "hello_world" +:+ "(1)"
  /\ ID (created hello3) = "hello_world" +:+ "(2)".
Proof.
  apply (create_three_same_slug ascii_only gs0 ltac:(done) 5 w0 ""
           "Hello World!" "Hello World!" "hello world" "x" "y" "z"
           (created hello1) (created hello2) (created hello3)
           (after hello1 w0) (after hello2 w0) (after hello3 w0));
    try (vm_compute; reflexivity); try (vm_compute; lia); vm_compute; discriminate.
Defined.

(** *** C7: a node with children is not deleted *)

(** C7.  Where the node at [path] is a directory with a directory [name]
    in it, [DeleteDocument] returns the has-children error and the world,
    files and repository, is the one it was called in. *)
Theorem delete_refused_with_children gs w path k name :
  resolve (Join [docsDir gs; FromSlash path]) = Some k ->
  files w !! k = Some FDir ->
  files w !! (k ++ [name]) = Some FDir ->
  DeleteDocument gs w path = (Some (Errorf "cannot delete document with children"), w).
Proof.
  intros Hr Hk Hchild. unfold DeleteDocument, hasChildren, os_ReadDir.
  rewrite Hr, (lookup_path_Some _ _ _ Hk).
  assert (existsb IsDir (dir_entries (files w) k) = true) as ->; [|done].
  apply existsb_exists. exists {| Name := name; IsDir := true |}. split; [|done].
  apply list_elem_of_In, elem_of_dir_entries. by exists FDir.
Qed.

Definition with_child : World := after (CreateDocument ascii_only gs0 5 u1 "a" "B" "b") u1.

Lemma delete_refused_with_children_witness :
  DeleteDocument gs0 with_child "a"
  = (Some (Errorf "cannot delete document with children"), with_child).
Proof.
  apply (delete_refused_with_children gs0 with_child "a" ["data"; "docs"; "a"] "b");
    vm_compute; reflexivity.
Defined.

(** *** C10: a failed creation leaves no directory *)

(** C10.  Once [CreateDocument] has made the directory of the new node,
    a failure to write the content file, or a failure to commit after the
    file is written, makes it return an error, and in the world it leaves
    neither the directory nor anything below it exists. *)
Theorem create_failure_removes_directory Unidecode gs fuel w parentPath title content
    id w1 k :
  let fullPath :=
    if String.eqb parentPath "" then Join [docsDir gs; id]
    else Join [docsDir gs; FromSlash parentPath; id] in
  let docFilePath := Join [fullPath; title +:+ ".md"] in
  let written := os_WriteFile w1 docFilePath content in
  generateID Unidecode gs fuel w parentPath title = Some id ->
  os_Mkdir w fullPath = (None, w1) ->
  resolve fullPath = Some k ->
  written.1 <> None
  \/ (commitChanges gs written.2 ("Create document: " +:+ Join [parentPath; id])).1 <> None ->
  exists e w',
    CreateDocument Unidecode gs fuel w parentPath title content = Some (Err e, w')
    /\ e <> mkDirErr
    /\ is_ok (os_Stat w' fullPath) = false
    /\ forall k', k `prefix_of` k' -> files w' !! k' = None.
Proof.
  intros fullPath docFilePath written Hid Hmk Hk Hfail.
  destruct (Mkdir_ok _ _ _ Hmk) as (k0 & Hk0 & Hne & _).
  assert (k0 = k) as -> by congruence.
  assert (forall w2, is_ok (os_Stat (os_RemoveAll w2 fullPath).2 fullPath) = false) as Hstat.
  { intros w2. unfold os_Stat, lookup_path. rewrite Hk.
    rewrite (RemoveAll_gone w2 fullPath k k Hk Hne) by done. by destruct (file_on_way _ _ _). }
  unfold CreateDocument. rewrite Hid. fold fullPath. rewrite Hmk. fold docFilePath.
  subst written. destruct (os_WriteFile w1 docFilePath content) as [[e|] w2] eqn:Hw; simpl in *.
  - eexists _, _. split; [done|]. split; [done|]. split; [apply Hstat|].
    intros k' Hpre. by apply (RemoveAll_gone w2 fullPath k k').
  - destruct Hfail as [|Hfail]; [done|].
    destruct (commitChanges gs w2 _) as [[e|] w3] eqn:Hc; [|done].
    eexists _, _. split; [done|]. split; [done|]. split; [apply Hstat|].
    intros k' Hpre. by apply (RemoveAll_gone w3 fullPath k k').
Qed.

(** A title with a slash in it names a file in a directory that is not
    there: the write fails after the directory of the node was made. *)
Lemma create_failure_removes_directory_witness :
  exists e w',
    CreateDocument ascii_only gs0 5 w0 "" "a/b" "text" = Some (Err e, w')
    /\ e <> mkDirErr
    /\ is_ok (os_Stat w' (Join [docsDir gs0; "ab"])) = false
    /\ forall k', ["data"; "docs"; "ab"] `prefix_of` k' -> files w' !! k' = None.
Proof.
  apply (create_failure_removes_directory ascii_only gs0 5 w0 "" "a/b" "text" "ab"
           (set_files w0 (<[ ["data"; "docs"; "ab"] := FDir ]> (files w0)))
           ["data"; "docs"; "ab"]).
  - vm_compute; reflexivity.
  - vm_compute; reflexivity.
  - vm_compute; reflexivity.
  - left. vm_compute. discriminate.
Defined.

(** The same when the repository fails at the commit. *)
Definition broken_repo : World :=
  {| files := files w0; commits := []; now := 0;
     write_fault := fun _ => false; git_fault := true |}.

Example create_with_broken_repo :
  answer (CreateDocument ascii_only gs0 5 broken_repo "" "Doc" "text")
  = Some (Err (Wrap "failed to commit changes" (Wrap "failed to get worktree" GitError)))
  /\ paths_of (after (CreateDocument ascii_only gs0 5 broken_repo "" "Doc" "text") w0)
     = [ []; ["data"]; ["data"; "docs"] ].
Proof. vm_compute. split; reflexivity. Qed.

End StorageFacts.

(** ** More on the search index *)

Module SearchMore.
Import GoInt GoIntFacts GoStrings Search SearchFacts.

Section Engine.

Variable Fields : string -> list string.
Variable ToLower : string -> string.
Variable o : MapOrder.

Local Abbreviation IndexDocument := (IndexDocument Fields ToLower o).
Local Abbreviation DeleteDocument := (DeleteDocument Fields ToLower o).
Local Abbreviation Search := (Search Fields ToLower o).

(** The two loops sort any slice: the result is a rearrangement of the
    input in which every entry ranks before all that follow it. *)
Theorem sortResults_sorts (l : list scored) :
  sortResults l ≡ₚ l /\ StronglySorted ranks_before (sortResults l).
Proof. split; [apply sortResults_perm|apply sortResults_sorted]. Qed.

Lemma omap_length_le {A B} (f : A -> option B) (l : list A) :
  (length (omap f l) <= length l)%nat.
Proof.
  induction l as [|x l IH]; csimpl; [done|]. destruct (f x); csimpl; lia.
Qed.

Lemma sortedResults_length se query :
  length (sortedResults Fields ToLower o se query)
  = size (collect Fields ToLower o se query).
Proof.
  rewrite (Permutation_length (sortedResults_perm Fields ToLower o se query)).
  rewrite length_fmap. apply length_map_to_list.
Qed.

(** Whenever [Search] returns, the total is the number of paths that
    scored, whatever the page, and the documents are no more than the page
    size (10 for a page size below 1). *)
Theorem Search_total_and_bound se query page pageSize docs total err :
  Search se query page pageSize = Returned docs total err ->
  total = Z.of_nat (size (collect Fields ToLower o se query))
  /\ Z.of_nat (length docs) <= (if pageSize <? 1 then 10 else pageSize).
Proof.
  unfold Search.Search. rewrite <- sortedResults_length.
  set (sorted := sortedResults Fields ToLower o se query).
  set (ps := if pageSize <? 1 then 10 else pageSize).
  assert (1 <= ps) as Hps by (subst ps; destruct (Z.ltb_spec pageSize 1); lia).
  set (start := wrap64 (wrap64 ((if page <? 1 then 1 else page) - 1) * ps)).
  destruct (start >=? Z.of_nat (length sorted)).
  - intros [= <- <- _]. simpl. lia.
  - set (e := wrap64 (start + ps)).
    destruct ((0 <=? start) && (start <=? (if e >? Z.of_nat (length sorted)
                                            then Z.of_nat (length sorted) else e))) eqn:Hb;
      [|done].
    intros [= <- <- _]. split; [done|].
    apply andb_true_iff in Hb as [H0 Hle]. apply Z.leb_le in H0, Hle.
    etrans; [apply inj_le, omap_length_le|]. rewrite length_take.
    assert (e <= start + ps) as He.
    { subst e. unfold wrap64.
      pose proof (Z.mod_le (start + ps + 2 ^ 63) (2 ^ 64) ltac:(lia) ltac:(lia)). lia. }
    destruct (e >? Z.of_nat (length sorted)) eqn:Hgt; lia.
Qed.

(** *** [DeleteDocument] undoes [IndexDocument] *)

(** The stem one word gives under one language, if any. *)
Definition stem_of (se : SearchEngine) (word lang : string) : list string :=
  match stemmer se (normalize ToLower word) lang false with
  | Stemmed stemmed => if String.eqb stemmed "" then [] else [stemmed]
  | StemError => []
  end.

Definition index_stems (se : SearchEngine) (words : list string) : list string :=
  words ≫= fun word => langs_of o se ≫= fun lang => stem_of se word lang.

Definition delete_stems (se : SearchEngine) (words : list string) : list string :=
  langs_of o se ≫= fun lang => words ≫= fun word => stem_of se word lang.

Lemma index_as_bumps se fullPath words idx :
  foldl (index_word ToLower o se fullPath) idx words
  = foldl (fun idx stem => bump stem fullPath idx) idx (index_stems se words).
Proof.
  unfold index_stems. rewrite foldl_bind. revert idx.
  induction words as [|w ws IH]; intros idx; [done|]. simpl. rewrite <- IH. f_equal.
  unfold index_word. rewrite foldl_bind. generalize (langs_of o se). intros langs.
  revert idx. induction langs as [|lang langs IHl]; intros idx; [done|]. simpl.
  rewrite <- IHl. f_equal. unfold index_lang, stem_of.
  destruct (stemmer se _ lang false); [|done]. by destruct (String.eqb stem "").
Qed.

Lemma unlink_lang_as_unlinks se fullPath words lang idx :
  unlink_lang ToLower se fullPath words idx lang
  = foldl (fun idx stem => unlink stem fullPath idx) idx
      (words ≫= fun word => stem_of se word lang).
Proof.
  unfold unlink_lang. rewrite foldl_bind. revert idx.
  induction words as [|w ws IHw]; intros idx; [done|]. simpl. rewrite <- IHw. f_equal.
  unfold unlink_word, stem_of.
  destruct (stemmer se _ lang false); [|done]. by destruct (String.eqb stem "").
Qed.

Lemma delete_as_unlinks se fullPath words idx :
  foldl (unlink_lang ToLower se fullPath words) idx (langs_of o se)
  = foldl (fun idx stem => unlink stem fullPath idx) idx (delete_stems se words).
Proof.
  unfold delete_stems. rewrite foldl_bind. generalize (langs_of o se). intros langs.
  revert idx. induction langs as [|lang langs IH]; intros idx; [done|]. simpl.
  by rewrite <- IH, unlink_lang_as_unlinks.
Qed.

Lemma stems_same se words stem :
  stem ∈ index_stems se words <-> stem ∈ delete_stems se words.
Proof.
  unfold index_stems, delete_stems. rewrite !list_elem_of_bind. split.
  - intros (w & (lang & Hs & Hl)%list_elem_of_bind & Hw).
    exists lang. split; [|done]. apply list_elem_of_bind. eauto.
  - intros (lang & (w & Hs & Hw)%list_elem_of_bind & Hl).
    exists w. split; [|done]. apply list_elem_of_bind. eauto.
Qed.

(** After the bumps, a stem that was bumped has the old bucket with a
    count for the path, and every other stem has what it had. *)
Lemma bumps_spec fullPath (stems : list string) idx0 stem :
  let idx1 := foldl (fun idx s => bump s fullPath idx) idx0 stems in
  (stem ∈ stems ->
   exists c, idx1 !! stem = Some (<[fullPath := c]> (default ∅ (idx0 !! stem))))
  /\ (stem ∉ stems -> idx1 !! stem = idx0 !! stem).
Proof.
  induction stems as [|s stems IH] using rev_ind; simpl.
  - split; [by intros ?%elem_of_nil|done].
  - rewrite foldl_app. simpl. destruct IH as [IHin IHout]. unfold bump at 1 3.
    destruct (decide (s = stem)) as [->|Hne].
    + split; [|intros H; exfalso; apply H; apply elem_of_app; right; constructor].
      intros _. rewrite lookup_insert_eq.
      destruct (decide (stem ∈ stems)) as [Hin|Hout].
      * destruct (IHin Hin) as (c & ->). simpl. rewrite insert_insert_eq. eauto.
      * rewrite (IHout Hout). eauto.
    + rewrite lookup_insert_ne by done. split.
      * intros [H|H%list_elem_of_singleton]%elem_of_app; [by apply IHin|done].
      * intros H. apply IHout. intros Hin. apply H, elem_of_app. by left.
Qed.

Lemma unlink_ne s fullPath idx t : s <> t -> unlink s fullPath idx !! t = idx !! t.
Proof.
  intros Hne. unfold unlink. destruct (idx !! s); [|done].
  destruct (decide _); [by rewrite lookup_delete_ne|by rewrite lookup_insert_ne].
Qed.

(** Unlinking the path from stems that were bumped gives those stems
    what they had before the bumps, where the path was new and no bucket
    was empty. *)
Lemma unlinks_spec fullPath (bumped : list string) idx0 idx1 :
  buckets_nonempty idx0 ->
  (forall s b, idx0 !! s = Some b -> b !! fullPath = None) ->
  (forall s, s ∈ bumped ->
     exists c, idx1 !! s = Some (<[fullPath := c]> (default ∅ (idx0 !! s)))) ->
  forall stems : list string,
  (forall s, s ∈ stems -> s ∈ bumped) ->
  forall stem,
  let idx2 := foldl (fun idx s => unlink s fullPath idx) idx1 stems in
  (stem ∈ stems -> idx2 !! stem = idx0 !! stem)
  /\ (stem ∉ stems -> idx2 !! stem = idx1 !! stem).
Proof.
  intros Hne Hfresh Hb. induction stems as [|s stems IH] using rev_ind; intros Hsub stem; simpl.
  - split; [by intros ?%elem_of_nil|done].
  - rewrite foldl_app. simpl.
    assert (forall s', s' ∈ stems -> s' ∈ bumped) as Hsub'
      by (intros s' H; apply Hsub, elem_of_app; by left).
    specialize (IH Hsub'). simpl in IH.
    set (idx := foldl (fun idx s => unlink s fullPath idx) idx1 stems) in *.
    assert (unlink s fullPath idx !! s = idx0 !! s) as Hs.
    { destruct (IH s) as [IHin IHout]. unfold unlink.
      destruct (decide (s ∈ stems)) as [Hin|Hout].
      - rewrite (IHin Hin). destruct (idx0 !! s) as [b|] eqn:E; [|by rewrite IHin].
        rewrite (delete_id b) by eauto.
        destruct (decide (size b = 0%nat)) as [Hz|_].
        + apply map_size_empty_iff in Hz. by destruct (Hne _ _ E).
        + by rewrite lookup_insert_eq.
      - rewrite (IHout Hout).
        destruct (Hb s) as (c & ->); [apply Hsub, elem_of_app; right; constructor|].
        rewrite delete_insert_eq.
        assert (default ∅ (idx0 !! s) !! fullPath = None) as Hf.
        { destruct (idx0 !! s) as [b|] eqn:E; simpl; [eauto|apply lookup_empty]. }
        rewrite (delete_id _ _ Hf).
        destruct (decide (size (default ∅ (idx0 !! s)) = 0%nat)) as [Hz|Hnz].
        + rewrite lookup_delete_eq. apply map_size_empty_iff in Hz.
          destruct (idx0 !! s) as [b|] eqn:E; [|done]. simpl in Hz. by destruct (Hne _ _ E).
        + rewrite lookup_insert_eq. destruct (idx0 !! s) as [b|] eqn:E; [done|].
          simpl in Hnz. by rewrite map_size_empty in Hnz. }
    destruct (decide (s = stem)) as [->|Hns].
    + split; [done|]. intros H. exfalso. apply H, elem_of_app. right. constructor.
    + rewrite unlink_ne by done. destruct (IH stem) as [IHin IHout]. split.
      * intros [H|H%list_elem_of_singleton]%elem_of_app; [by apply IHin|done].
      * intros H. apply IHout. intros Hin. apply H, elem_of_app. by left.
Qed.

(** Where no document is stored under the path of [doc] and no bucket
    mentions it, and no bucket is empty, indexing [doc] and deleting its
    path gives the index and the documents back as they were. *)
Theorem delete_undoes_index se doc :
  buckets_nonempty (index se) ->
  documents se !! getBasePath (Path doc) = None ->
  (forall s b, index se !! s = Some b -> b !! getBasePath (Path doc) = None) ->
  let se' := (DeleteDocument (IndexDocument se doc).1 (Path doc)).1 in
  (DeleteDocument (IndexDocument se doc).1 (Path doc)).2 = None
  /\ index se' = index se
  /\ documents se' = documents se.
Proof.
  intros Hne Hdoc Hfresh. unfold Search.DeleteDocument. simpl.
  rewrite lookup_insert_eq. simpl. split; [done|]. split.
  - rewrite index_as_bumps.
    change (langs_of o {| index := ?i; documents := ?d; languages := languages se;
                           stemmer := stemmer se |}) with (langs_of o se).
    set (words := Fields (Title doc +:+ " " +:+ Content doc)).
    set (fp := getBasePath (Path doc)).
    set (idx1 := foldl (fun idx stem => bump stem fp idx) (index se) (index_stems se words)).
    pose proof (delete_as_unlinks
                  {| index := idx1; documents := <[fp := doc]> (documents se);
                     languages := languages se; stemmer := stemmer se |} fp words idx1) as Hd.
    unfold langs_of in Hd. simpl in Hd. unfold langs_of. rewrite Hd. clear Hd.
    change (delete_stems _ words) with (delete_stems se words).
    apply map_eq. intros stem.
    assert (forall s, s ∈ index_stems se words ->
              exists c, idx1 !! s = Some (<[fp := c]> (default ∅ (index se !! s)))) as Hb
      by (intros s Hs; by apply (bumps_spec fp (index_stems se words) (index se) s)).
    pose proof (unlinks_spec fp (index_stems se words) (index se) idx1 Hne Hfresh Hb
                  (delete_stems se words) (fun s H => proj2 (stems_same se words s) H) stem)
      as [Hin Hout].
    destruct (decide (stem ∈ delete_stems se words)) as [H|H].
    + by apply Hin.
    + rewrite (Hout H).
      apply (bumps_spec fp (index_stems se words) (index se) stem).
      intros Hi. by apply H, stems_same.
  - rewrite delete_insert_eq. by apply delete_id.
Qed.

End Engine.

End SearchMore.
